(** * Quorum: the quality-aware k-mer count database

    A shallow embedding of the database creation program (the source file
    holding [main], [quality_mer_counter] and its own [hash_with_quality]) and
    of the query header [src/mer_database.hpp], with the properties of the
    packed counter/flag value, of the read scanner, of the serialised layout
    and of the start-up checks.

    Conventions.  A [uint64_t] is a [Z] in [0, 2^64) with its wrap-around
    written out; a k-mer ([jellyfish::mer_dna]) is the [Z] holding its
    2-bit-per-base encoding; the value array is a list of slots read and
    written by index.  The jellyfish containers are outside the repository:
    the key store is an interface ([KeyStore]) with a reference instance, and
    the bit-packed value array follows the library's word layout. *)

From Stdlib Require Import ZArith Lia Bool String Ascii.
From Stdlib.Strings Require Import Byte.
From stdpp Require Import base list strings gmap.

Local Open Scope Z_scope.

(* ===================================================================== *)
(** * Definitions *)
(* ===================================================================== *)

(** ** Unsigned 64-bit words *)

Definition wrap64 (z : Z) : Z := z mod 2 ^ 64.

(** [sizeof(uint64_t) * 8] *)
Definition uint64_width : Z := 8 * 8.

(** The initialiser of [max_val_] in the constructor of [hash_with_quality]:
    [(uint64_t)-1 >> (sizeof(uint64_t) * 8 - bits)]. *)
Definition max_val_of_bits (bits : Z) : Z :=
  Z.shiftr (wrap64 (-1)) (uint64_width - bits).

(** ** The packed value: low bit = quality flag, the rest = counter *)

Definition flag_of (v : Z) : Z := Z.land v 1.
Definition counter_of (v : Z) : Z := Z.shiftr v 1.
Definition pack (counter flag : Z) : Z := 2 * counter + flag.

(** A packed value of width [bits + 1]. *)
Definition packed_value (bits v : Z) : Prop := 0 <= v < 2 ^ (bits + 1).

(** What one pass through the body of the [do ... while] of
    [hash_with_quality::add] decides for the value [oval] read last:
    a new value to hand to [entry.set], or the early [return true]. *)
Inductive merge_result : Type :=
| Store (nval : Z)
| Saturated.

Definition merge_step (oval quality max_val_ : Z) : merge_result :=
  if Z.land oval 1 >? quality then Store 3
  else if Z.shiftr oval 1 =? max_val_ then Saturated
  else Store (wrap64 (oval + 2)).

(** The content of the slot after the pass, when no other thread interferes:
    the stored value, or the old one where nothing is stored. *)
Definition merge (old_value quality_class max_counter : Z) : Z :=
  match merge_step old_value quality_class max_counter with
  | Store nval => nval
  | Saturated => old_value
  end.

(** Folding a sequence of quality classes into one slot, oldest first. *)
Definition merge_all (max_counter : Z) (classes : list Z) (v : Z) : Z :=
  fold_left (fun acc q => merge acc q max_counter) classes v.

(** The compare-and-swap retry loop of [add].  [entry.set(nval)] succeeds when
    the word holding the slot is as it was read; when another thread got in
    between, it fails and hands back the slot's present content, from which the
    body runs again.  [sched] lists, for the failed attempts in order, the
    content handed back; once it is used up the attempt succeeds.  The result
    is the content of the slot when [add] returns. *)
Fixpoint cas_loop (sched : list Z) (quality max_val_ nval : Z) {struct sched} : Z :=
  match merge_step nval quality max_val_ with
  | Saturated => nval
  | Store nval' =>
      match sched with
      | [] => nval'
      | current :: sched' => cas_loop sched' quality max_val_ current
      end
  end.

(** ** Bytes and little-endian words *)

Definition byte_of_Z (z : Z) : byte :=
  default Byte.x00 (Byte.of_N (Z.to_N (z mod 256))).

Definition Z_of_byte (b : byte) : Z := Z.of_N (Byte.to_N b).

(** The [n] low bytes of [w], lowest first: how a word lies in memory and so
    in a file written with [os.write((const char* )data, bytes)]. *)
Fixpoint le_bytes (n : nat) (w : Z) : list byte :=
  match n with
  | O => []
  | S n' => byte_of_Z w :: le_bytes n' (Z.shiftr w 8)
  end.

Fixpoint le_word (bs : list byte) : Z :=
  match bs with
  | [] => 0
  | b :: bs' => Z_of_byte b + 256 * le_word bs'
  end.

(** An output stream is the bytes written to it so far. *)
Definition ostream : Type := list byte.

Definition os_write (bs : list byte) (os : ostream) : ostream := os ++ bs.

(** ** The key store: [jellyfish::large_hash::array<mer_dna>]

    The container is jellyfish's.  The program uses its constructor, [size],
    [set] and [write]; [get_key_id] finds the slot of a stored key, and the
    query side maps the written bytes back ([large_hash::array_raw]).
    [ks_set] gives [None] where [set] returns [false] (no slot could be
    claimed): the store is then as it was. *)
Class KeyStore (KS : Type) : Type := {
  ks_new : nat -> Z -> Z -> Z -> KS;
  ks_size : KS -> nat;
  ks_set : KS -> Z -> option (KS * bool * nat);
  ks_get_key_id : KS -> Z -> option nat;
  ks_write : KS -> list byte;
  ks_raw_get_id : list byte -> nat -> Z -> option nat
}.

(** A reference key store: [capacity] slots claimed in order, a key found
    again at the slot it claimed.  On disk a slot is eight bytes holding the
    key plus one, zero for a free slot. *)
Record slot_store : Type := {
  ss_capacity : nat;
  ss_keys : list Z
}.

Fixpoint index_of (key : Z) (keys : list Z) : option nat :=
  match keys with
  | [] => None
  | k :: keys' => if k =? key then Some O else S <$> index_of key keys'
  end.

Definition slot_set (s : slot_store) (key : Z) : option (slot_store * bool * nat) :=
  match index_of key (ss_keys s) with
  | Some id => Some (s, false, id)
  | None =>
      if (length (ss_keys s) <? ss_capacity s)%nat
      then Some ({| ss_capacity := ss_capacity s; ss_keys := ss_keys s ++ [key] |},
                 true, length (ss_keys s))
      else None
  end.

Definition slot_write (s : slot_store) : list byte :=
  flat_map (fun k => le_bytes 8 (k + 1)) (ss_keys s)
  ++ flat_map (fun _ => le_bytes 8 0)
       (seq 0 (ss_capacity s - length (ss_keys s))).

(** The slot of [key] in a mapped key section of [size] slots. *)
Fixpoint raw_find (n : nat) (bytes : list byte) (key : Z) (id : nat) : option nat :=
  match n with
  | O => None
  | S n' =>
      if (length bytes <? 8)%nat then None
      else if le_word (take 8 bytes) =? key + 1 then Some id
      else raw_find n' (drop 8 bytes) key (S id)
  end.

#[export] Instance slot_key_store : KeyStore slot_store := {
  ks_new size _ _ _ := {| ss_capacity := size; ss_keys := [] |};
  ks_size := ss_capacity;
  ks_set := slot_set;
  ks_get_key_id s key := index_of key (ss_keys s);
  ks_write := slot_write;
  ks_raw_get_id bytes size key := raw_find size bytes key O
}.

(** ** The value array: [jellyfish::atomic_bits_array<uint64_t>]

    [va_bits] bits a slot, [64 / va_bits] slots to a 64-bit word, no slot
    across two words; fresh memory is zero. *)
Record val_array : Type := {
  va_bits : Z;
  va_slots : list Z
}.

Definition val_array_new (bits : Z) (size : nat) : val_array :=
  {| va_bits := bits; va_slots := replicate size 0 |}.

(** [vals_[id].get()]; the key store only hands out ids below its size, and
    beyond it the model reads 0. *)
Definition va_get (a : val_array) (id : nat) : Z := default 0 (va_slots a !! id).

(** The slot [id] after a successful [set].  The slot holds the value handed
    to [set]: every value the loop of [add] hands over fits the slot (see
    [merge_packed]). *)
Definition va_set (a : val_array) (id : nat) (v : Z) : val_array :=
  {| va_bits := va_bits a; va_slots := <[id := v]> (va_slots a) |}.

Definition per_word (bits : Z) : nat := Z.to_nat (64 / bits).

Fixpoint pack_word (bits : Z) (vs : list Z) (off : Z) : Z :=
  match vs with
  | [] => 0
  | v :: vs' =>
      Z.lor (Z.shiftl (Z.land v (Z.ones bits)) off) (pack_word bits vs' (off + bits))
  end.

Fixpoint words_of_slots (fuel : nat) (bits : Z) (vs : list Z) : list Z :=
  match fuel, vs with
  | S fuel', _ :: _ =>
      pack_word bits (take (per_word bits) vs) 0
      :: words_of_slots fuel' bits (drop (per_word bits) vs)
  | _, _ => []
  end.

(** [vals_.write(os)]: the words as they lie in memory. *)
Definition va_write (a : val_array) : list byte :=
  flat_map (le_bytes 8) (words_of_slots (length (va_slots a)) (va_bits a) (va_slots a)).

(** Slot [id] of a mapped value section ([atomic_bits_array_raw]) of slots
    [bits] wide. *)
Definition va_raw_get (bytes : list byte) (bits : Z) (id : nat) : Z :=
  let q := (id / per_word bits)%nat in
  let r := (id mod per_word bits)%nat in
  let word := le_word (take 8 (drop (8 * q) bytes)) in
  Z.land (Z.shiftr word (Z.of_nat r * bits)) (Z.ones bits).

(** ** The table: [hash_with_quality] *)

Record hash_with_quality (KS : Type) : Type := {
  keys_ : KS;
  vals_ : val_array;
  max_val_ : Z
}.
Arguments keys_ {KS} _.
Arguments vals_ {KS} _.
Arguments max_val_ {KS} _.

Section Table.
Context {KS : Type} `{KeyStore KS}.

(** The constructor; [reprobe_limit] defaults to 126 in the source. *)
Definition hash_with_quality_new (size : nat) (key_len bits reprobe_limit : Z)
  : hash_with_quality KS :=
  let keys := ks_new size key_len 0 reprobe_limit in
  {| keys_ := keys;
     vals_ := val_array_new (bits + 1) (ks_size keys);
     max_val_ := max_val_of_bits bits |}.

(** [add(key, quality)]: the result and the table after the call.  [sched]
    is the interference met by the retry loop (see [cas_loop]); [[]] is the
    call that no other thread disturbs. *)
Definition add (sched : list Z) (h : hash_with_quality KS) (key quality : Z)
  : bool * hash_with_quality KS :=
  match ks_set (keys_ h) key with
  | None => (false, h)
  | Some (keys', _, id) =>
      let nval := va_get (vals_ h) id in
      (true,
       {| keys_ := keys';
          vals_ := va_set (vals_ h) id (cas_loop sched quality (max_val_ h) nval);
          max_val_ := max_val_ h |})
  end.

(** The packed value the table holds for [key], if the key is stored. *)
Definition value_of (h : hash_with_quality KS) (key : Z) : option Z :=
  va_get (vals_ h) <$> ks_get_key_id (keys_ h) key.
End Table.

(** [hash_with_quality::write] as the database creation program has it. *)
Module CreateDatabase.
Definition write {KS : Type} `{KeyStore KS} (h : hash_with_quality KS) (os : ostream)
  : ostream :=
  let os := os_write (va_write (vals_ h)) os in
  os_write (ks_write (keys_ h)) os.
End CreateDatabase.

(** [hash_with_quality::write] as [mer_database.hpp] has it. *)
Module MerDatabase.
Definition write {KS : Type} `{KeyStore KS} (h : hash_with_quality KS) (os : ostream)
  : ostream :=
  let os := os_write (ks_write (keys_ h)) os in
  os_write (va_write (vals_ h)) os.
End MerDatabase.

(** ** k-mers: the operations of [jellyfish::mer_dna] the scanner uses

    A k-mer is the integer of its bases, two bits a base, the last base
    lowest.  Codes: A 0, C 1, G 2, T 3 in either case; every other character
    gets a negative code. *)
Module mer_dna.
Definition code (c : ascii) : Z :=
  match c with
  | "A" | "a" => 0
  | "C" | "c" => 1
  | "G" | "g" => 2
  | "T" | "t" => 3
  | _ => -1
  end%char.

Definition not_dna (c : Z) : bool := c <? 0.

Definition rev_code (c : Z) : Z := 3 - c.

(** [m.shift_left(c)]: drop the first base, append [c]. *)
Definition shift_left (k m c : Z) : Z :=
  Z.land (Z.lor (Z.shiftl m 2) (Z.land c 3)) (Z.ones (2 * k)).

(** [m.shift_right(c)]: drop the last base, put [c] in front. *)
Definition shift_right (k m c : Z) : Z :=
  Z.lor (Z.shiftr m 2) (Z.shiftl (Z.land c 3) (2 * (k - 1))).
End mer_dna.

(** A [char] as the signed value the comparison [*qual > qual_thresh_] sees. *)
Definition char_val (c : ascii) : Z :=
  let n := Z.of_nat (nat_of_ascii c) in
  if n <? 128 then n else n - 256.

(** [unsigned int] arithmetic. *)
Definition wrap32 (z : Z) : Z := z mod 2 ^ 32.

(** ** The scanner: [quality_mer_counter::start] *)

(** [m < rm ? m : rm] *)
Definition canonical (m rm : Z) : Z := if m <? rm then m else rm.

(** One parsed record of a job: [job->data[i]]. *)
Record read : Type := {
  seq : string;
  qual : string
}.

(** How a run of a loop of the model ends: finished with a state, out of the
    fuel given to it, or in undefined behaviour (an iterator dereferenced
    outside its string). *)
Inductive outcome (A : Type) : Type :=
| Finished (a : A)
| OutOfFuel
| Undefined.
Arguments Finished {A} _.
Arguments OutOfFuel {A}.
Arguments Undefined {A}.

Definition outcome_bind {A B : Type} (o : outcome A) (f : A -> outcome B) : outcome B :=
  match o with
  | Finished a => f a
  | OutOfFuel => OutOfFuel
  | Undefined => Undefined
  end.

Section Scanner.
Context {KS : Type} `{KeyStore KS}.

(** [mer_dna::k()] and [qual_thresh_]. *)
Variable k : Z.
Variable qual_thresh_ : Z.

(** What a worker carries from read to read: the two mers declared at the
    top of [start], the shared table, the calls of [ary_.add] made so far
    (key and quality, oldest first), and the interference each coming call
    of [add] meets. *)
Record worker : Type := {
  w_m : Z;
  w_rm : Z;
  w_ary : hash_with_quality KS;
  w_calls : list (Z * Z);
  w_scheds : list (list Z)
}.

(** The variables of the loop over the bases of one read.  [base] is an
    offset from [seq.begin()]; the iterator [qual] is set to
    [quals.begin()] and never moved, so it needs no variable.  [s_rounds]
    is not in the source: it counts the rounds of the body run so far. *)
Record scan : Type := {
  s_worker : worker;
  s_base : nat;
  s_low_len : Z;
  s_high_len : Z;
  s_rounds : nat
}.

(** [ary_.add(m < rm ? m : rm, high_len >= mer_dna::k())] *)
Definition record_mer (w : worker) (high_len : Z) : worker :=
  let key := canonical (w_m w) (w_rm w) in
  let quality := if high_len >=? k then 1 else 0 in
  let sched := hd [] (w_scheds w) in
  {| w_m := w_m w;
     w_rm := w_rm w;
     w_ary := snd (add sched (w_ary w) key quality);
     w_calls := w_calls w ++ [(key, quality)];
     w_scheds := tl (w_scheds w) |}.

(** The body of the loop over the bases; [None] where it dereferences an
    iterator outside its string. *)
Definition scan_body (r : read) (s : scan) : option scan :=
  match String.get (s_base s) (seq r) with
  | None => None
  | Some c =>
      let code := mer_dna.code c in
      if mer_dna.not_dna code then
        Some {| s_worker := s_worker s; s_base := s_base s;
                s_low_len := 0; s_high_len := 0; s_rounds := S (s_rounds s) |}
      else
        let w := s_worker s in
        let m := mer_dna.shift_left k (w_m w) code in
        let m := mer_dna.shift_right k m (mer_dna.rev_code code) in
        let w := {| w_m := m; w_rm := w_rm w; w_ary := w_ary w;
                    w_calls := w_calls w; w_scheds := w_scheds w |} in
        let low_len := wrap32 (s_low_len s + 1) in
        match String.get 0 (qual r) with
        | None => None
        | Some q =>
            let high_len :=
              if char_val q >? qual_thresh_ then wrap32 (s_high_len s + 1) else 0 in
            let w := if low_len >=? k then record_mer w high_len else w in
            Some {| s_worker := w; s_base := s_base s;
                    s_low_len := low_len; s_high_len := high_len;
                    s_rounds := S (s_rounds s) |}
        end
  end.

(** [++base, ++base] *)
Definition scan_next (s : scan) : scan :=
  {| s_worker := s_worker s; s_base := S (S (s_base s));
     s_low_len := s_low_len s; s_high_len := s_high_len s;
     s_rounds := s_rounds s |}.

(** [for( ; base != seq.begin(); ++base, ++base) { ... }] *)
Fixpoint scan_loop (fuel : nat) (r : read) (s : scan) : outcome scan :=
  match fuel with
  | O => OutOfFuel
  | S fuel' =>
      if negb (s_base s =? 0)%nat then
        match scan_body r s with
        | None => Undefined
        | Some s' => scan_loop fuel' r (scan_next s')
        end
      else Finished s
  end.

(** The variables as the loop over the bases finds them:
    [base = seq.begin()], [low_len = 0], [high_len = 0]. *)
Definition scan_begin (w : worker) : scan :=
  {| s_worker := w; s_base := 0; s_low_len := 0; s_high_len := 0; s_rounds := 0 |}.

(** One round of the loop over the reads of a job. *)
Definition process_read (fuel : nat) (w : worker) (r : read) : outcome worker :=
  outcome_bind (scan_loop fuel r (scan_begin w)) (fun s' => Finished (s_worker s')).

Fixpoint process_reads (fuel : nat) (w : worker) (rs : list read) : outcome worker :=
  match rs with
  | [] => Finished w
  | r :: rs' => outcome_bind (process_read fuel w r) (fun w' => process_reads fuel w' rs')
  end.

(** [start(thid)]: the jobs the parser hands to this worker, in order, until
    it hands an empty one.  [fuel] bounds the rounds of each loop over the
    bases. *)
Fixpoint start (fuel : nat) (w : worker) (jobs : list (list read)) : outcome worker :=
  match jobs with
  | [] => Finished w
  | job :: jobs' => outcome_bind (process_reads fuel w job) (fun w' => start fuel w' jobs')
  end.
End Scanner.

(** ** Results of fallible code *)

(** A computation that returns, or ends the process with a message
    ([args.error], [die]) or throws ([eraise]), or has no result in the model
    (a loop out of fuel, undefined behaviour). *)
Inductive result (A : Type) : Type :=
| Ok (a : A)
| Fatal (msg : string)
| NoResult.
Arguments Ok {A} _.
Arguments Fatal {A} _.
Arguments NoResult {A}.

(** What a run of [main] does that can be seen from outside. *)
Inductive event : Type :=
| OutputOpened (path : string)
| IngestionStarted
| HeaderWritten
| TableWritten.

(** A program: the events so far in, the events and the result out. *)
Definition prog (A : Type) : Type := list event -> list event * result A.

Definition ret {A : Type} (a : A) : prog A := fun tr => (tr, Ok a).

Definition bind {A B : Type} (c : prog A) (f : A -> prog B) : prog B :=
  fun tr =>
    match c tr with
    | (tr', Ok a) => f a tr'
    | (tr', Fatal msg) => (tr', Fatal msg)
    | (tr', NoResult) => (tr', NoResult)
    end.

Definition emit (e : event) : prog unit := fun tr => (tr ++ [e], Ok tt).

(** Modelled from the spec: [create_database_cmdline::error], of the generated
    command-line header that is not among the sources.  A configuration error
    is fatal: it is reported and the process exits with a non-zero status
    before anything else is done.  [die << msg] of jellyfish ends the process
    the same way. *)
Definition error {A : Type} (msg : string) : prog A := fun tr => (tr, Fatal msg).

Definition when (b : bool) (c : prog unit) : prog unit := if b then c else ret tt.

Definition of_outcome {A : Type} (o : outcome A) : prog A :=
  fun tr => (tr, match o with Finished a => Ok a | _ => NoResult end).

Notation "'let*' x := c 'in' f" := (bind c (fun x => f))
  (at level 10, x name, c at level 100, f at level 200).
Notation "c ;;; f" := (bind c (fun _ => f))
  (at level 100, f at level 200, right associativity).

(** The exit status of the process. *)
Definition exit_status {A : Type} (r : result A) : option Z :=
  match r with
  | Ok _ => Some 0
  | Fatal _ => Some 1
  | NoResult => None
  end.

(** ** The file header: [database_header]

    [jellyfish::file_header] keeps a JSON object; a member never set reads as
    0 or as the empty string.  [h_offset] is not a member: it is where the
    header ends in the file, so sections are addressed from the end of the
    header. *)
Record database_header : Type := {
  h_format : string;
  h_size : nat;
  h_key_len : Z;
  h_val_len : Z;
  h_max_reprobe : Z;
  h_bits : Z;
  h_key_bytes : nat;
  h_value_bytes : nat
}.

(** [check_format] *)
Definition check_format (h : database_header) : bool :=
  String.eqb "binary/quorum_db" (h_format h).

(** A database file: its header, if one can be parsed, and the bytes after
    it. *)
Record db_file : Type := {
  file_header : option database_header;
  file_payload : list byte
}.

(** ** [main] of the database creation program *)

(** The fields of [create_database_cmdline] that [main] reads once
    [args.parse] has returned; the generated header is not among the sources,
    so the fields are inputs. *)
Record create_database_cmdline : Type := {
  mer_arg : Z;
  min_qual_value_given : bool;
  min_qual_value_arg : Z;
  min_qual_char_given : bool;
  min_qual_char_arg : string;
  bits_arg : Z;
  size_arg : nat;
  reprobe_arg : Z;
  threads_arg : nat;
  reads_arg : list string;
  output_arg : string
}.

(** What the run finds outside the program: whether a path opens for writing,
    the jobs the parser hands to each worker, and the fuel of the model. *)
Record environment : Type := {
  env_output_good : string -> bool;
  env_jobs : nat -> list (list read);
  env_fuel : nat
}.

(** [(char)x] of an unsigned value. *)
Definition to_char (x : Z) : Z :=
  let n := x mod 256 in if n <? 128 then n else n - 256.

Section Main.
Context {KS : Type} `{KeyStore KS}.

(** [counter.exec_join(threads)]: every worker runs [start]; the model runs
    them one after the other on the shared table. *)
Fixpoint exec_join (k qual_thresh : Z) (env : environment) (thid n : nat)
    (ary : hash_with_quality KS) : outcome (hash_with_quality KS) :=
  match n with
  | O => Finished ary
  | S n' =>
      let w := {| w_m := 0; w_rm := 0; w_ary := ary; w_calls := []; w_scheds := [] |} in
      outcome_bind (start k qual_thresh (env_fuel env) w (env_jobs env thid))
        (fun w' => exec_join k qual_thresh env (S thid) n' (w_ary w'))
  end.

Definition main (env : environment) (args : create_database_cmdline) : prog db_file :=
  let k := mer_arg args in
  when (negb (min_qual_value_given args) && negb (min_qual_char_given args))
    (error "Either a min-qual-value or min-qual-char must be provided.") ;;;
  when (negb (String.length (min_qual_char_arg args) =? 1)%nat)
    (error "The min-qual-char should be one ASCII character.") ;;;
  let qual_thresh :=
    if min_qual_char_given args
    then match String.get 0 (min_qual_char_arg args) with
         | Some c => char_val c
         | None => 0
         end
    else to_char (min_qual_value_arg args) in
  when ((bits_arg args <? 1) || (bits_arg args >? 63))
    (error "The number of bits should be between 1 and 63") ;;;
  emit (OutputOpened (output_arg args)) ;;;
  when (negb (env_output_good env (output_arg args)))
    (error "Failed to open output file") ;;;
  let ary := hash_with_quality_new (size_arg args) (2 * k) (bits_arg args)
               (reprobe_arg args) in
  emit IngestionStarted ;;;
  let* ary := of_outcome (exec_join k qual_thresh env 0 (threads_arg args) ary) in
  let header :=
    {| h_format := ""; h_size := ks_size (keys_ ary); h_key_len := 2 * k;
       h_val_len := 0; h_max_reprobe := reprobe_arg args;
       h_bits := bits_arg args; h_key_bytes := 0; h_value_bytes := 0 |} in
  emit HeaderWritten ;;;
  emit TableWritten ;;;
  ret {| file_header := Some header;
         file_payload := CreateDatabase.write ary [] |}.
End Main.

(** ** The query side: [database_query] *)

(** A mapped section of the file with the parameters it is read with. *)
Record mer_array_raw : Type := {
  kr_bytes : list byte;
  kr_size : nat;
  kr_key_len : Z;
  kr_val_len : Z;
  kr_max_reprobe : Z
}.

Record val_array_raw : Type := {
  vr_bytes : list byte;
  vr_bits : Z;
  vr_size : nat
}.

Record database_query : Type := {
  header_ : database_header;
  file_ : list byte;
  q_keys_ : mer_array_raw;
  q_vals_ : val_array_raw
}.

(** The file system the query side sees. *)
Definition file_system : Type := string -> option db_file.

Definition parse_header (fs : file_system) (filename : string) : result database_header :=
  match fs filename with
  | None => Fatal "Can't open file for reading"
  | Some f =>
      match file_header f with
      | None => Fatal "Can't parse header of file"
      | Some res => if check_format res then Ok res else Fatal "Wrong type for file"
      end
  end.

(** The constructor: the key section is mapped at the end of the header,
    [key_bytes] long, and the value section right after it, [value_bytes]
    long and read with slots [bits] wide. *)
Definition database_query_new (fs : file_system) (filename : string)
  : result database_query :=
  match parse_header fs filename with
  | Ok h =>
      match fs filename with
      | Some f =>
          let base := file_payload f in
          Ok {| header_ := h;
                file_ := base;
                q_keys_ := {| kr_bytes := take (h_key_bytes h) base;
                              kr_size := h_size h;
                              kr_key_len := h_key_len h;
                              kr_val_len := h_val_len h;
                              kr_max_reprobe := h_max_reprobe h |};
                q_vals_ := {| vr_bytes := take (h_value_bytes h)
                                            (drop (h_key_bytes h) base);
                              vr_bits := h_bits h;
                              vr_size := h_size h |} |}
      | None => Fatal "Can't map file"
      end
  | Fatal msg => Fatal msg
  | NoResult => NoResult
  end.

(** [get_val]: the value of [m] in the high quality database. *)
Definition get_val (q : database_query) (m : Z) : Z := 1.

(** [get_best_alternatives] *)
Definition get_best_alternatives (q : database_query) (m : Z) : Z := 0.

(** The packed value the mapped arrays hold for [key]: its slot in the key
    section, read in the value section. *)
Definition raw_value_of {KS : Type} `{KeyStore KS} (q : database_query) (key : Z)
  : option Z :=
  va_raw_get (vr_bytes (q_vals_ q)) (vr_bits (q_vals_ q))
    <$> ks_raw_get_id (kr_bytes (q_keys_ q)) (kr_size (q_keys_ q)) key.

(** ** Windows of a read

    The k-mer of a window and its reverse complement, built with the two
    shifts the scanner uses: each base appended to the forward mer, its
    complement put in front of the reverse one. *)
Definition mer_of_string (k : Z) (s : string) : Z :=
  fold_left (fun m c => mer_dna.shift_left k m (mer_dna.code c))
    (list_ascii_of_string s) 0.

Definition revcomp_of_string (k : Z) (s : string) : Z :=
  fold_left (fun rm c => mer_dna.shift_right k rm (mer_dna.rev_code (mer_dna.code c)))
    (list_ascii_of_string s) 0.

Definition canonical_of_window (k : Z) (s : string) : Z :=
  canonical (mer_of_string k s) (revcomp_of_string k s).

(** ** The start-up checks, as propositions *)

(** One of the four tests of [main] fails. *)
Definition check_fails (env : environment) (args : create_database_cmdline) : Prop :=
  (min_qual_value_given args = false /\ min_qual_char_given args = false) \/
  String.length (min_qual_char_arg args) <> 1%nat \/
  bits_arg args < 1 \/
  63 < bits_arg args \/
  env_output_good env (output_arg args) = false.

(** The violations of a configuration: no form of the quality threshold, a
    quality character given that is not exactly one character long, a bit
    width outside 1-63, an output file that does not open for writing. *)
Definition violation (env : environment) (args : create_database_cmdline) : Prop :=
  (min_qual_value_given args = false /\ min_qual_char_given args = false) \/
  (min_qual_char_given args = true /\ String.length (min_qual_char_arg args) <> 1%nat) \/
  bits_arg args < 1 \/
  63 < bits_arg args \/
  env_output_good env (output_arg args) = false.

(** The same list with the quality character only required not to be longer
    than one character. *)
Definition listed_violation (env : environment) (args : create_database_cmdline) : Prop :=
  (min_qual_value_given args = false /\ min_qual_char_given args = false) \/
  (1 < String.length (min_qual_char_arg args))%nat \/
  bits_arg args < 1 \/
  63 < bits_arg args \/
  env_output_good env (output_arg args) = false.

Definition rejected {A : Type} (run : list event * result A) : Prop :=
  exists msg, snd run = Fatal msg.

(** ** Sample inputs *)

(** The read "ACGT" with every quality above the threshold '#'. *)
Definition read_acgt : read := {| seq := "ACGT"; qual := "IIII" |}.

Definition sample_env : environment :=
  {| env_output_good := fun _ => true;
     env_jobs := fun _ => [[read_acgt]];
     env_fuel := 16 |}.

(** [-m 3 -Q '#' -b 7 -s 4 -t 1 -o db reads.fastq] *)
Definition sample_args : create_database_cmdline :=
  {| mer_arg := 3;
     min_qual_value_given := false; min_qual_value_arg := 0;
     min_qual_char_given := true; min_qual_char_arg := "#";
     bits_arg := 7; size_arg := 4; reprobe_arg := 126; threads_arg := 1;
     reads_arg := ["reads.fastq"%string]; output_arg := "db" |}.

(** The same with an empty quality character: [-Q ''] *)
Definition empty_char_args : create_database_cmdline :=
  {| mer_arg := 3;
     min_qual_value_given := false; min_qual_value_arg := 0;
     min_qual_char_given := true; min_qual_char_arg := "";
     bits_arg := 7; size_arg := 4; reprobe_arg := 126; threads_arg := 1;
     reads_arg := ["reads.fastq"%string]; output_arg := "db" |}.

(** A fresh table of four slots for 3-mers with seven counter bits. *)
Definition fresh_table : hash_with_quality slot_store :=
  hash_with_quality_new 4 6 7 126.

(** A fresh worker on a fresh table. *)
Definition fresh_worker : worker :=
  {| w_m := 0; w_rm := 0; w_ary := fresh_table; w_calls := []; w_scheds := [] |}.

(** The table after the 3-mers AAC and ACG were each recorded once with
    quality 1. *)
Definition two_mer_table : hash_with_quality slot_store :=
  snd (add [] (snd (add [] fresh_table (mer_of_string 3 "AAC") 1))
         (mer_of_string 3 "ACG") 1).

(** A header that describes the sections of a written table of 3-mers: the
    format tag, the byte length of each section, and what [main] records
    besides. *)
Definition describing_header {KS : Type} `{KeyStore KS}
    (h : hash_with_quality KS) (bits : Z) : database_header :=
  {| h_format := "binary/quorum_db";
     h_size := ks_size (keys_ h);
     h_key_len := 2 * 3;
     h_val_len := 0;
     h_max_reprobe := 126;
     h_bits := bits;
     h_key_bytes := length (ks_write (keys_ h));
     h_value_bytes := length (va_write (vals_ h)) |}.

(** A file system holding the one file [db]. *)
Definition single_file (f : db_file) : file_system :=
  fun name => if String.eqb name "db" then Some f else None.

(** The table [two_mer_table] written keys first, under a header that gives
    the slot width of its value array. *)
Definition sample_db : db_file :=
  {| file_header := Some (describing_header two_mer_table 8);
     file_payload := MerDatabase.write two_mer_table [] |}.

(** The table [two_mer_table] as the database creation program writes it,
    under a header that describes its two sections and records the bit width
    as [main] does. *)
Definition created_db : db_file :=
  {| file_header := Some (describing_header two_mer_table 7);
     file_payload := CreateDatabase.write two_mer_table [] |}.

(** ** Sequences of calls of [add] *)

(** A call of [add]: the interference its retry loop meets, the key and the
    quality. *)
Record add_call : Type := {
  ac_sched : list Z;
  ac_key : Z;
  ac_quality : Z
}.

(** The table after the calls, made one after the other. *)
Definition add_all {KS : Type} `{KeyStore KS} (calls : list add_call)
    (h : hash_with_quality KS) : hash_with_quality KS :=
  fold_left (fun h c => snd (add (ac_sched c) h (ac_key c) (ac_quality c))) calls h.

(** What the contract of the key store promises of [set] and [get_key_id] on
    the stores the program can hold ([ks_wf]: a new store, and a store after
    [set]): ids are below the size, the size is fixed, a key that was set is
    found at the id [set] gave, keys found before keep their ids, and one id
    is never the slot of two keys. *)
Class KeyStoreLaws (KS : Type) `{KeyStore KS} (ks_wf : KS -> Prop) : Prop := {
  ks_new_wf : forall size key_len val_len reprobe,
    ks_wf (ks_new size key_len val_len reprobe);
  ks_set_wf : forall s key s' is_new id,
    ks_wf s -> ks_set s key = Some (s', is_new, id) -> ks_wf s';
  ks_set_bound : forall s key s' is_new id,
    ks_wf s -> ks_set s key = Some (s', is_new, id) -> (id < ks_size s)%nat;
  ks_set_size : forall s key s' is_new id,
    ks_set s key = Some (s', is_new, id) -> ks_size s' = ks_size s;
  ks_set_found : forall s key s' is_new id,
    ks_set s key = Some (s', is_new, id) -> ks_get_key_id s' key = Some id;
  ks_set_stable : forall s key s' is_new id key' id',
    ks_set s key = Some (s', is_new, id) ->
    ks_get_key_id s key' = Some id' -> ks_get_key_id s' key' = Some id';
  ks_set_fresh : forall s key s' is_new id key' id',
    ks_set s key = Some (s', is_new, id) ->
    ks_get_key_id s key' = Some id' -> key' <> key -> id' <> id
}.

(** The stores of the reference key store that the operations produce: no
    more keys than slots. *)
Definition slot_store_wf (s : slot_store) : Prop :=
  (length (ss_keys s) <= ss_capacity s)%nat.

(** A packed value whose flag is 0. *)
Definition unflagged (bits v : Z) : Prop := packed_value bits v /\ flag_of v = 0.

(** ** [oid_speed_calc]: the slots of the four substitutions of base 0

    [m.base(0)] is the base in the two lowest bits of the k-mer;
    [RectangularBinaryMatrix::times] is jellyfish's product of the hash matrix
    with a k-mer, taken here as a function. *)

(** [m.polyA()] *)
Definition polyA : Z := 0.

(** [m.base(0).code()] *)
Definition base0_code (m : Z) : Z := Z.land m 3.

(** [m.base(0) = c] *)
Definition set_base0 (m c : Z) : Z := Z.lor (Z.ldiff m 3) (Z.land c 3).

Record oid_speed_calc : Type := {
  matrix_times : Z -> Z;
  size_mask_ : Z;
  changes_ : list Z
}.

(** The constructor: [changes_[0] = 0], then for [i] from 1 to 3 the base 0 of
    the poly-A mer is set to [i] and [changes_[i]] is the product. *)
Definition oid_speed_calc_new (times : Z -> Z) (size_mask : Z) : oid_speed_calc :=
  let fill (st : Z * list Z) (i : Z) :=
    let m := set_base0 (fst st) i in (m, snd st ++ [times m]) in
  {| matrix_times := times;
     size_mask_ := size_mask;
     changes_ := snd (fold_left fill [1; 2; 3] (polyA, [0])) |}.

(** [changes_[c]] *)
Definition change (o : oid_speed_calc) (c : Z) : Z :=
  default 0 (changes_ o !! Z.to_nat c).

(** [calc(m, oids)]: the four entries of [oids]. *)
Definition calc (o : oid_speed_calc) (m : Z) : list Z :=
  let base :=
    Z.lxor (Z.land (matrix_times o m) (size_mask_ o)) (change o (base0_code m)) in
  [base; Z.lxor base (change o 1); Z.lxor base (change o 2); Z.lxor base (change o 3)].

(** A product with a binary matrix is linear over exclusive or. *)
Definition xor_linear (times : Z -> Z) : Prop :=
  forall a b, times (Z.lxor a b) = Z.lxor (times a) (times b).

(** ** The members of the header: [database_header] over its JSON object

    [jellyfish::file_header] keeps the header as a JSON object [root_]; the
    methods of [database_header] store and read its members.  A member that
    was never stored reads as null, which converts to 0 and to the empty
    string; a number converts to an unsigned int only when it fits 32 bits,
    and a string converts to no number (the conversion throws: [None]). *)
Inductive json_value : Type :=
| JNull
| JUInt (n : Z)
| JString (s : string).

(** [root_[name]] read. *)
Definition member (root : gmap string json_value) (name : string) : json_value :=
  default JNull (root !! name).

Definition asUInt (j : json_value) : option Z :=
  match j with
  | JNull => Some 0
  | JUInt n => if n <? 2 ^ 32 then Some n else None
  | JString _ => None
  end.

Definition asLargestUInt (j : json_value) : option Z :=
  match j with
  | JNull => Some 0
  | JUInt n => Some n
  | JString _ => None
  end.

Module Header.
(** [void bits(uint32_t b)] and [uint32_t bits() const] *)
Definition set_bits (b : Z) (root : gmap string json_value) : gmap string json_value :=
  <["bits" := JUInt (wrap32 b)]> root.

Definition bits (root : gmap string json_value) : option Z :=
  asUInt (member root "bits").

(** [void value_bytes(size_t bytes)] and [size_t value_bytes() const] *)
Definition set_value_bytes (bytes : Z) (root : gmap string json_value)
  : gmap string json_value :=
  <["value_bytes" := JUInt (wrap64 bytes)]> root.

Definition value_bytes (root : gmap string json_value) : option Z :=
  asLargestUInt (member root "value_bytes").

(** [void key_bytes(size_t bytes)] and [size_t key_bytes() const] *)
Definition set_key_bytes (bytes : Z) (root : gmap string json_value)
  : gmap string json_value :=
  <["key_bytes" := JUInt (wrap64 bytes)]> root.

Definition key_bytes (root : gmap string json_value) : option Z :=
  asLargestUInt (member root "key_bytes").

(** [set_format]: [this->format("binary/quorum_db")] *)
Definition set_format (root : gmap string json_value) : gmap string json_value :=
  <["format" := JString "binary/quorum_db"]> root.

(** [check_format]: ["binary/quorum_db" == this->format()].  A null member
    gives the empty string and a number its digits, neither of which is the
    tag. *)
Definition check_format (root : gmap string json_value) : bool :=
  match member root "format" with
  | JString s => String.eqb "binary/quorum_db" s
  | _ => false
  end.
End Header.

(* ===================================================================== *)
(** * Theorems *)
(* ===================================================================== *)

(** ** Words and bit fields *)

Lemma max_val_of_bits_eq (bits : Z) :
  1 <= bits <= 63 -> max_val_of_bits bits = 2 ^ bits - 1.
Proof.
  intros Hb. unfold max_val_of_bits, wrap64, uint64_width.
  change (-1 mod 2 ^ 64) with (2 ^ 64 - 1).
  rewrite Z.shiftr_div_pow2 by lia.
  replace (2 ^ 64) with (2 ^ bits * 2 ^ (8 * 8 - bits))
    by (rewrite <- Z.pow_add_r by lia; f_equal; lia).
  assert (Hp : 0 < 2 ^ (8 * 8 - bits)) by (apply Z.pow_pos_nonneg; lia).
  assert (Hq : 0 < 2 ^ bits) by (apply Z.pow_pos_nonneg; lia).
  symmetry. apply Z.div_unique with (r := 2 ^ (8 * 8 - bits) - 1); nia.
Qed.

Lemma flag_of_mod (v : Z) : flag_of v = v mod 2.
Proof. unfold flag_of. change 1 with (Z.ones 1). now rewrite Z.land_ones by lia. Qed.

Lemma counter_of_div (v : Z) : counter_of v = v / 2.
Proof. unfold counter_of. now rewrite Z.shiftr_div_pow2 by lia. Qed.

Lemma pack_fields (v : Z) : pack (counter_of v) (flag_of v) = v.
Proof. rewrite flag_of_mod, counter_of_div. unfold pack. pose proof (Z.div_mod v 2). lia. Qed.

Lemma pow2_succ (bits : Z) : 0 <= bits -> 2 ^ (bits + 1) = 2 * 2 ^ bits.
Proof. intros. rewrite Z.pow_add_r by lia. lia. Qed.

(** ** The merge step *)

(** The step in arithmetic: on a packed value nothing wraps around, the flag is
    the value's parity and the counter its half. *)
Lemma merge_step_arith (bits oval quality : Z) :
  1 <= bits <= 63 -> packed_value bits oval ->
  merge_step oval quality (2 ^ bits - 1) =
    if quality <? oval mod 2 then Store 3
    else if oval / 2 =? 2 ^ bits - 1 then Saturated
    else Store (oval + 2).
Proof.
  intros Hb [Hlo Hhi]. unfold merge_step.
  fold (flag_of oval) (counter_of oval).
  rewrite flag_of_mod, counter_of_div, Z.gtb_ltb.
  destruct (quality <? oval mod 2); [reflexivity|].
  destruct (oval / 2 =? 2 ^ bits - 1) eqn:Hsat; [reflexivity|].
  apply Z.eqb_neq in Hsat. f_equal. unfold wrap64.
  rewrite pow2_succ in Hhi by lia.
  assert (2 ^ bits <= 2 ^ 63) by (apply Z.pow_le_mono_r; lia).
  pose proof (Z.div_mod oval 2 ltac:(lia)).
  pose proof (Z.mod_pos_bound oval 2 ltac:(lia)).
  apply Z.mod_small. change (2 ^ 64) with (2 * 2 ^ 63). lia.
Qed.

Lemma fields_after_increment (v : Z) :
  counter_of (v + 2) = counter_of v + 1 /\ flag_of (v + 2) = flag_of v.
Proof.
  rewrite !counter_of_div, !flag_of_mod.
  replace (v + 2) with (v + 1 * 2) by lia.
  now rewrite Z.div_add, Z.mod_add by lia.
Qed.

(** A stored value is again a packed value of the same width. *)
Lemma merge_packed (bits oval quality : Z) :
  1 <= bits <= 63 -> packed_value bits oval ->
  packed_value bits (merge oval quality (max_val_of_bits bits)).
Proof.
  intros Hb Hv. unfold merge. rewrite max_val_of_bits_eq, merge_step_arith by assumption.
  assert (4 <= 2 ^ (bits + 1)).
  { change 4 with (2 ^ 2). apply Z.pow_le_mono_r; lia. }
  destruct (quality <? oval mod 2); [unfold packed_value; lia|].
  destruct (oval / 2 =? 2 ^ bits - 1) eqn:Hsat; [assumption|].
  apply Z.eqb_neq in Hsat. destruct Hv as [Hlo Hhi]. unfold packed_value.
  rewrite pow2_succ in * by lia.
  pose proof (Z.div_mod oval 2 ltac:(lia)).
  pose proof (Z.mod_pos_bound oval 2 ltac:(lia)).
  assert (oval / 2 < 2 ^ bits) by (apply Z.div_lt_upper_bound; lia).
  lia.
Qed.

(** C1. For a packed value, a quality class in {0,1} and the maximal counter
    [2^bits - 1] that the constructor computes, the body of the loop of [add]
    takes exactly one of three branches, tried in this order: the stored flag
    exceeds the class and the new value is the literal 3; otherwise the counter
    is at its maximum and the old value stays (nothing is stored); otherwise
    the new value is the old one plus 2, which adds one to the counter and
    keeps the flag. *)
Theorem add_merge_three_branches (bits oval quality : Z) :
  1 <= bits <= 63 -> packed_value bits oval -> quality = 0 \/ quality = 1 ->
  max_val_of_bits bits = 2 ^ bits - 1 /\
  merge_step oval quality (max_val_of_bits bits) =
    (if decide (quality < flag_of oval) then Store 3
     else if decide (counter_of oval = 2 ^ bits - 1) then Saturated
     else Store (oval + 2)) /\
  merge oval quality (max_val_of_bits bits) =
    (if decide (quality < flag_of oval) then pack 1 1
     else if decide (counter_of oval = 2 ^ bits - 1) then oval
     else pack (counter_of oval + 1) (flag_of oval)).
Proof.
  intros Hb Hv _. split; [now apply max_val_of_bits_eq|].
  unfold merge. rewrite max_val_of_bits_eq, merge_step_arith by assumption.
  rewrite <- flag_of_mod, <- counter_of_div.
  destruct (fields_after_increment oval) as [Hc Hf].
  rewrite <- Hc, <- Hf, pack_fields.
  repeat case_decide;
    repeat match goal with
           | |- context [?a <? ?b] => destruct (Z.ltb_spec a b); try lia
           | |- context [?a =? ?b] => destruct (Z.eqb_spec a b); try lia
           end; split; reflexivity.
Qed.

(** The theorem at [bits = 2]: the value 5 (counter 2, flag 1) meets class 0
    and is reset to 3. *)
Lemma add_merge_three_branches_witness :
  merge_step 5 0 (max_val_of_bits 2) = Store 3 /\ merge 5 0 (max_val_of_bits 2) = 3.
Proof.
  destruct (add_merge_three_branches 2 5 0) as (_ & Hs & Hm).
  - lia.
  - unfold packed_value. simpl. lia.
  - left. reflexivity.
  - split; [exact Hs | exact Hm].
Defined.

(** With two counter bits or more, the values 0, 2 and 4 take the increment
    branch whatever the class. *)
Lemma merge_increments_small (bits v q : Z) :
  2 <= bits <= 63 -> 0 <= v < 6 -> v mod 2 = 0 -> 0 <= q ->
  merge v q (max_val_of_bits bits) = v + 2.
Proof.
  intros Hb Hv Hpar Hq. rewrite max_val_of_bits_eq by lia.
  assert (H4 : 4 <= 2 ^ bits) by (change 4 with (2 ^ 2); apply Z.pow_le_mono_r; lia).
  unfold merge. rewrite merge_step_arith; [|lia|].
  - rewrite Hpar. destruct (Z.ltb_spec q 0); [lia|].
    destruct (Z.eqb_spec (v / 2) (2 ^ bits - 1)) as [E|]; [|reflexivity].
    assert (v / 2 < 3) by (apply Z.div_lt_upper_bound; lia). lia.
  - unfold packed_value. rewrite pow2_succ by lia. lia.
Qed.

(** From a fresh slot the flag stays 0: no sequence of observations reaches the
    reset branch. *)
Lemma merge_all_fresh_flag (bits : Z) (classes : list Z) :
  1 <= bits <= 63 -> Forall (fun q => 0 <= q) classes ->
  forall v, packed_value bits v -> flag_of v = 0 ->
  flag_of (merge_all (max_val_of_bits bits) classes v) = 0.
Proof.
  intros Hb Hq. induction Hq as [|q classes Hq0 _ IH]; intros v Hv Hf; [exact Hf|].
  cbn [merge_all fold_left]. apply IH; [now apply merge_packed|].
  unfold merge. rewrite max_val_of_bits_eq, merge_step_arith by assumption.
  rewrite flag_of_mod in Hf. rewrite Hf.
  destruct (Z.ltb_spec q 0); [lia|].
  destruct (v / 2 =? 2 ^ bits - 1); [now rewrite flag_of_mod|].
  destruct (fields_after_increment v) as [_ ->]. now rewrite flag_of_mod.
Qed.

(** C4 as stated fails: at [bits = 2] the classes 0, 1, 0 applied to a fresh
    slot give 6, not the literal 3. *)
Lemma fresh_slot_010_not_reset :
  merge_all (max_val_of_bits 2) [0; 1; 0] 0 = 6 /\
  merge_all (max_val_of_bits 2) [0; 1; 0] 0 <> 3.
Proof. split; [reflexivity | discriminate]. Qed.

(** C4, amended.  With at least two counter bits, a fresh slot (value 0) after
    the classes 0, 0 has counter 2 and flag 0; after the classes 0, 1, 0 it
    has counter 3 and flag 0 (the value 6): the stored flag is still 0 at the
    third observation, so the reset branch is not taken.  The literal 3
    (counter 1, flag 1) is what class 0 makes of a value whose flag is 1. *)
Theorem fresh_slot_sequences (bits : Z) :
  2 <= bits <= 63 ->
  counter_of (merge_all (max_val_of_bits bits) [0; 0] 0) = 2 /\
  flag_of (merge_all (max_val_of_bits bits) [0; 0] 0) = 0 /\
  merge_all (max_val_of_bits bits) [0; 1] 0 = pack 2 0 /\
  merge_all (max_val_of_bits bits) [0; 1; 0] 0 = pack 3 0 /\
  (forall v, flag_of v = 1 -> merge v 0 (max_val_of_bits bits) = pack 1 1).
Proof.
  intros Hb. cbn [merge_all fold_left].
  rewrite !(merge_increments_small bits 0 0), !(merge_increments_small bits (0 + 2) 0),
    !(merge_increments_small bits (0 + 2) 1), !(merge_increments_small bits (0 + 2 + 2) 0)
    by (try reflexivity; lia).
  repeat split; try reflexivity.
  intros v Hf. unfold merge, merge_step. fold (flag_of v). rewrite Hf. reflexivity.
Qed.

(** The amended C4 at [bits = 2]. *)
Lemma fresh_slot_sequences_witness :
  counter_of (merge_all (max_val_of_bits 2) [0; 0] 0) = 2 /\
  merge_all (max_val_of_bits 2) [0; 1; 0] 0 = pack 3 0.
Proof.
  destruct (fresh_slot_sequences 2) as (Hc & _ & _ & H010 & _).
  - lia.
  - split; [exact Hc | exact H010].
Defined.

(** C5 as stated fails: at [bits = 2] the value 7 has the maximal counter 3,
    yet class 0 against its flag 1 replaces it by 3. *)
Lemma saturated_value_reset :
  counter_of 7 = 2 ^ 2 - 1 /\ merge 7 0 (max_val_of_bits 2) = 3 /\
  merge 7 0 (max_val_of_bits 2) <> 7.
Proof. repeat split; discriminate. Qed.

(** C5, amended.  A value whose counter is [2^bits - 1] is left as it is by
    every quality class that does not fall below its stored flag (the reset
    branch is tried first), and so by every further sequence of such classes;
    this holds too for the retry loop of [add] when no thread interferes. *)
Theorem saturated_value_fixed (bits v : Z) (classes : list Z) :
  1 <= bits <= 63 -> counter_of v = 2 ^ bits - 1 ->
  Forall (fun q => flag_of v <= q) classes ->
  (forall q, flag_of v <= q -> merge v q (max_val_of_bits bits) = v) /\
  merge_all (max_val_of_bits bits) classes v = v /\
  (forall q, flag_of v <= q -> cas_loop [] q (max_val_of_bits bits) v = v).
Proof.
  intros Hb Hc Hq. rewrite max_val_of_bits_eq by assumption.
  assert (Hstep : forall q, flag_of v <= q -> merge_step v q (2 ^ bits - 1) = Saturated).
  { intros q Hle. unfold merge_step. fold (flag_of v) (counter_of v).
    destruct (Z.gtb_spec (flag_of v) q); [lia|].
    now rewrite Hc, Z.eqb_refl. }
  assert (Hm : forall q, flag_of v <= q -> merge v q (2 ^ bits - 1) = v).
  { intros q Hle. unfold merge. now rewrite Hstep. }
  split; [exact Hm|split].
  - induction Hq as [|q classes Hle _ IH]; [reflexivity|].
    change (merge_all (2 ^ bits - 1) classes (merge v q (2 ^ bits - 1)) = v).
    rewrite Hm by assumption. exact IH.
  - intros q Hle. cbn [cas_loop]. now rewrite Hstep.
Qed.

(** The amended C5 at [bits = 2]: the value 6 (counter 3, flag 0) under the
    classes 0, 1, 1, 0. *)
Lemma saturated_value_fixed_witness :
  merge_all (max_val_of_bits 2) [0; 1; 1; 0] 6 = 6.
Proof.
  destruct (saturated_value_fixed 2 6 [0; 1; 1; 0]) as (_ & Hall & _).
  - lia.
  - reflexivity.
  - change (flag_of 6) with 0. repeat (apply Forall_cons_2; [lia|]). apply Forall_nil_2.
  - exact Hall.
Defined.

(** ** The scanner *)

Section ScannerFacts.
Context {KS : Type} `{KeyStore KS}.
Variables (k qual_thresh_ : Z).

(** The loop over the bases tests [base != seq.begin()] with [base] at
    [seq.begin()]: it is left at once, whatever the read. *)
Lemma scan_loop_at_begin (fuel : nat) (r : read) (w : worker) :
  scan_loop k qual_thresh_ (S fuel) r (scan_begin w) = Finished (scan_begin w).
Proof. reflexivity. Qed.

Lemma process_read_skips (fuel : nat) (r : read) (w : worker) :
  process_read k qual_thresh_ (S fuel) w r = Finished w.
Proof. reflexivity. Qed.

Lemma process_reads_skips (fuel : nat) (rs : list read) (w : worker) :
  process_reads k qual_thresh_ (S fuel) w rs = Finished w.
Proof.
  induction rs as [|r rs IH]; [reflexivity|].
  cbn [process_reads]. rewrite process_read_skips. exact IH.
Qed.

Lemma start_skips (fuel : nat) (jobs : list (list read)) (w : worker) :
  start k qual_thresh_ (S fuel) w jobs = Finished w.
Proof.
  induction jobs as [|job jobs IH]; [reflexivity|].
  cbn [start]. rewrite process_reads_skips. exact IH.
Qed.
End ScannerFacts.

(** C2. Whatever the read, the loop over its bases in
    [quality_mer_counter::start] starts with [base = seq.begin()] and runs
    while [base != seq.begin()]: given any fuel it finishes with no round of
    its body run.  So [start] returns with the worker as it found it: the
    table unchanged and no call of [hash_with_quality::add] made, for any
    jobs. *)
Theorem start_scans_nothing {KS : Type} `{KeyStore KS} (k qual_thresh_ : Z)
    (fuel : nat) (w : worker) (r : read) (jobs : list (list read)) :
  scan_loop k qual_thresh_ (S fuel) r (scan_begin w) = Finished (scan_begin w) /\
  s_rounds (scan_begin w) = 0%nat /\
  process_read k qual_thresh_ (S fuel) w r = Finished w /\
  start k qual_thresh_ (S fuel) w jobs = Finished w.
Proof.
  split; [apply scan_loop_at_begin|]. split; [reflexivity|].
  split; [apply process_read_skips | apply start_skips].
Qed.

(** ** The table *)

Lemma list_insert_same {A : Type} (d : A) (l : list A) (i : nat) :
  <[i := default d (l !! i)]> l = l.
Proof.
  destruct (l !! i) as [x|] eqn:Hi; cbn [default].
  - now apply list_insert_id.
  - apply list_insert_ge. now apply lookup_ge_None.
Qed.

Lemma va_set_same (a : val_array) (id : nat) : va_set a id (va_get a id) = a.
Proof. destruct a as [b l]. unfold va_set, va_get. cbn. now rewrite list_insert_same. Qed.

(** A value at its maximal counter ends the retry loop at once, whatever the
    other threads do. *)
Lemma cas_loop_saturated (sched : list Z) (quality max_val nval : Z) :
  merge_step nval quality max_val = Saturated ->
  cas_loop sched quality max_val nval = nval.
Proof. intros Hs. destruct sched; cbn [cas_loop]; now rewrite Hs. Qed.

(** Undisturbed, the retry loop runs its body once. *)
Lemma cas_loop_alone (quality max_val nval : Z) :
  cas_loop [] quality max_val nval = merge nval quality max_val.
Proof. unfold merge. cbn [cas_loop]. now destruct (merge_step nval quality max_val). Qed.

(** C8. [add] returns [false] exactly when the key store's [set] fails, and
    then leaves the table as it was; in every other case it returns [true],
    whatever interference the retry loop meets.  That covers the slot found at
    its maximal counter: the call returns [true] and the value array is left
    as it was. *)
Theorem add_false_iff_set_fails {KS : Type} `{KeyStore KS} (sched : list Z)
    (h : hash_with_quality KS) (key quality : Z) :
  (fst (add sched h key quality) = false <-> ks_set (keys_ h) key = None) /\
  (fst (add sched h key quality) = true <-> is_Some (ks_set (keys_ h) key)) /\
  (ks_set (keys_ h) key = None -> snd (add sched h key quality) = h) /\
  (forall keys' is_new id,
      ks_set (keys_ h) key = Some (keys', is_new, id) ->
      merge_step (va_get (vals_ h) id) quality (max_val_ h) = Saturated ->
      fst (add sched h key quality) = true /\
      vals_ (snd (add sched h key quality)) = vals_ h).
Proof.
  unfold add. destruct (ks_set (keys_ h) key) as [[[keys' is_new] id]|] eqn:Hset; cbn.
  - split; [split; discriminate|]. split; [split; eauto|].
    split; [discriminate|].
    intros keys2 is_new2 id2 [= <- <- <-] Hsat. split; [reflexivity|].
    rewrite (cas_loop_saturated _ _ _ _ Hsat). apply va_set_same.
  - split; [split; reflexivity|]. split; [split; [discriminate|intros [? ?]; discriminate]|].
    split; [reflexivity|]. intros ? ? ? [=].
Qed.

(** ** The start-up checks of [main] *)

Section MainFacts.
Context {KS : Type} `{KeyStore KS}.

(** The two ways a run of [main] can go: turned down on a violation, with
    nothing done but, at most, the output file opened; or past the checks
    and into the ingestion. *)
Lemma main_run (env : environment) (args : create_database_cmdline) :
  (check_fails env args /\
   exists tr msg, main env args [] = (tr, Fatal msg) /\
                  (tr = [] \/ tr = [OutputOpened (output_arg args)])) \/
  (~ check_fails env args /\
   exists tr r, main env args [] =
                  (OutputOpened (output_arg args) :: IngestionStarted :: tr, r) /\
                forall msg, r <> Fatal msg).
Proof.
  unfold main, check_fails.
  destruct (min_qual_value_given args) eqn:Hv, (min_qual_char_given args) eqn:Hc;
    cbn [negb andb when bind error ret];
    try (left; split; [left; split; reflexivity|]; eauto; fail);
    (destruct (Nat.eqb_spec (String.length (min_qual_char_arg args)) 1) as [Hl|Hl];
     cbn [negb when bind error ret];
     [|left; split; [right; left; exact Hl|]; eauto];
     destruct (Z.ltb_spec (bits_arg args) 1) as [Hb1|Hb1];
     cbn [orb when bind error ret];
     [left; split; [right; right; left; exact Hb1|]; eauto|];
     destruct (Z.gtb_spec (bits_arg args) 63) as [Hb2|Hb2];
     cbn [orb when bind error ret emit app];
     [left; split; [right; right; right; left; lia|]; eauto|];
     destruct (env_output_good env (output_arg args)) eqn:Hg;
     cbn [negb when bind error ret emit app];
     [|left; split; [right; right; right; right; reflexivity|]; eauto];
     right; split;
     [intros [[? ?]|[?|[?|[?|?]]]]; try congruence; try lia|];
     unfold of_outcome;
     match goal with
     | |- context [exec_join ?a ?b ?c ?d ?e ?f] => destruct (exec_join a b c d e f)
     end; cbn [app]; eexists _, _; (split; [reflexivity|discriminate])).
Qed.
End MainFacts.

(** C9 as stated fails: with the quality character given as the empty string
    ([-Q '']), a bit width of 7 and a writable output, none of the listed
    violations holds (the input is not longer than one character), and [main]
    turns the configuration down all the same. *)
Lemma empty_quality_char_rejected :
  rejected (main (KS := slot_store) sample_env empty_char_args []) /\
  ~ listed_violation sample_env empty_char_args.
Proof.
  split.
  - eexists. reflexivity.
  - unfold listed_violation. cbn. intros [[? ?]|[?|[?|[?|?]]]]; try discriminate; lia.
Qed.

(** C9, amended.  [main] turns a configuration down, with a non-zero exit
    status and before any ingestion work, whenever neither form of the quality
    threshold is given, or the quality character is given and is not exactly
    one character long (empty as well as longer), or the bit width is outside
    1-63, or the output file does not open for writing.  A configuration that
    gives the quality character is turned down for these reasons only: every
    other one goes on to the ingestion. *)
Theorem main_rejects_iff_violation {KS : Type} `{KeyStore KS}
    (env : environment) (args : create_database_cmdline) :
  (violation env args -> rejected (main env args [])) /\
  (min_qual_char_given args = true ->
   (rejected (main env args []) <-> violation env args)) /\
  (rejected (main env args []) <-> exit_status (snd (main env args [])) = Some 1) /\
  (rejected (main env args []) <-> IngestionStarted ∉ fst (main env args [])).
Proof.
  assert (Hvc : violation env args -> check_fails env args).
  { unfold violation, check_fails. tauto. }
  assert (Hcv : min_qual_char_given args = true -> check_fails env args ->
                violation env args).
  { unfold violation, check_fails. tauto. }
  unfold rejected.
  destruct (main_run env args) as [(Hv & tr & msg & -> & Htr)|(Hv & tr & r & -> & Hr)];
    cbn [fst snd exit_status].
  - split; [eauto|]. split; [intros Hc; split; eauto|].
    split; [split; eauto|].
    split; [|eauto]. intros _. destruct Htr as [-> | ->].
    + apply not_elem_of_nil.
    + rewrite list_elem_of_singleton. discriminate.
  - assert (Hno : ~ exists msg, r = Fatal msg) by (intros [msg ->]; now apply (Hr msg)).
    split; [intros Hx; now destruct Hv; apply Hvc|].
    split; [intros Hc; split; [intros Hx; now destruct Hno|intros Hx; destruct Hv; auto]|].
    split; [split; [intros Hx; now destruct Hno|]|].
    + destruct r; cbn; try discriminate. now destruct (Hr msg).
    + split; [intros Hx; now destruct Hno|]. intros Hx. exfalso. apply Hx.
      apply list_elem_of_further, list_elem_of_here.
Qed.

(** ** The query side *)

(** C10. On every database file that opens, [get_val] answers 1 for every
    k-mer: the answer depends neither on the k-mer nor on what the file
    holds. *)
Theorem get_val_is_one (fs : file_system) (filename : string)
    (q : database_query) (m : Z) :
  database_query_new fs filename = Ok q ->
  get_val q m = 1 /\ forall q' m', get_val q' m' = get_val q m.
Proof. intros _. split; [reflexivity | intros; reflexivity]. Qed.

(** The theorem on a file that opens: a two-key table written keys first under
    a header that describes it, asked for the 3-mer CGT. *)
Lemma get_val_is_one_witness :
  exists q,
    database_query_new (single_file sample_db) "db" = Ok q /\
    get_val q (mer_of_string 3 "CGT") = 1.
Proof.
  eexists. split; [reflexivity|].
  exact (proj1 (get_val_is_one (single_file sample_db) "db" _
                  (mer_of_string 3 "CGT") eq_refl)).
Defined.

(** ** The serialised table *)

Lemma le_bytes_length (n : nat) (w : Z) : length (le_bytes n w) = n.
Proof. revert w. induction n as [|n IH]; intros w; cbn; [reflexivity | now rewrite IH]. Qed.

Lemma words_bytes_length (ws : list Z) :
  length (flat_map (le_bytes 8) ws) = (8 * length ws)%nat.
Proof.
  induction ws as [|w ws IH]; [reflexivity|].
  cbn [flat_map]. rewrite length_app, le_bytes_length, IH. cbn [length]. lia.
Qed.

(** The number of words of a value array: its slots, [per_word] to a word,
    the last word possibly part filled. *)
Lemma words_of_slots_length (bits : Z) (fuel : nat) (vs : list Z) :
  (0 < per_word bits)%nat -> (length vs <= fuel)%nat ->
  length (words_of_slots fuel bits vs)
  = ((length vs + per_word bits - 1) / per_word bits)%nat.
Proof.
  intros Hp. revert vs. induction fuel as [|fuel IH]; intros vs Hlen.
  - destruct vs; [|cbn in Hlen; lia]. cbn. symmetry. apply Nat.div_small. lia.
  - destruct vs as [|v vs]; [cbn; symmetry; apply Nat.div_small; lia|].
    cbn [words_of_slots length]. rewrite IH by (rewrite length_drop; cbn in *; lia).
    rewrite length_drop. cbn [length] in *.
    destruct (le_lt_dec (S (length vs)) (per_word bits)) as [Hle|Hgt].
    + replace (S (length vs) - per_word bits)%nat with 0%nat by lia.
      rewrite (Nat.div_small (0 + per_word bits - 1)) by lia.
      apply (Nat.div_unique _ _ 1 (length vs)); lia.
    + replace (S (length vs) + per_word bits - 1)%nat
        with (S (length vs) - per_word bits + per_word bits - 1 + 1 * per_word bits)%nat
        by lia.
      rewrite Nat.div_add by lia. lia.
Qed.

(** The mapped sections of a file whose payload is one block after another:
    the query side takes the first [key_bytes] bytes for the keys and the next
    [value_bytes] for the values. *)
Lemma mapped_sections (first second : list byte) :
  take (length first) (first ++ second) = first /\
  take (length second) (drop (length first) (first ++ second)) = second.
Proof.
  split.
  - now rewrite take_app_length.
  - now rewrite drop_app_length, firstn_all.
Qed.

Section WriteFacts.
Context {KS : Type} `{KeyStore KS}.

(** The file [main] leaves when it returns: the table at the end of the
    ingestion, written by [CreateDatabase.write]. *)
Lemma main_file (env : environment) (args : create_database_cmdline) (f : db_file) :
  snd (main env args []) = Ok f ->
  exists ary : hash_with_quality KS, file_payload f = CreateDatabase.write ary [].
Proof.
  unfold main.
  destruct (negb (min_qual_value_given args) && negb (min_qual_char_given args));
    cbn [when bind error ret snd]; [discriminate|].
  destruct (negb (String.length (min_qual_char_arg args) =? 1)%nat);
    cbn [when bind error ret snd]; [discriminate|].
  destruct ((bits_arg args <? 1) || (bits_arg args >? 63));
    cbn [when bind error ret emit snd]; [discriminate|].
  destruct (negb (env_output_good env (output_arg args)));
    cbn [when bind error ret emit snd]; [discriminate|].
  unfold of_outcome.
  match goal with
  | |- context [exec_join ?a ?b ?c ?d ?e ?f] =>
      destruct (exec_join a b c d e f) as [ary| |]
  end; cbn [snd]; try discriminate.
  intros [= <-]. exists ary. reflexivity.
Qed.
End WriteFacts.

(** C7 as stated fails for the [write] of [mer_database.hpp]: on the two-key
    table it puts the key array first, so what it writes is not the value
    array followed by the key array. *)
Lemma mer_database_write_keys_first :
  MerDatabase.write two_mer_table []
    = ks_write (keys_ two_mer_table) ++ va_write (vals_ two_mer_table) /\
  MerDatabase.write two_mer_table []
    <> va_write (vals_ two_mer_table) ++ ks_write (keys_ two_mer_table).
Proof. split; [reflexivity | vm_compute; discriminate]. Qed.

(** C7, amended.  The [write] of the database creation program appends the
    value array and then the key array to the stream, each as its own block of
    bytes (the value array as whole 64-bit words, as many as its slots need),
    so the file [main] leaves is the header, then the value section, then the
    key section.  The [write]
    of [mer_database.hpp] appends the key array first and the value array
    second. *)
Theorem write_section_order {KS : Type} `{KeyStore KS}
    (h : hash_with_quality KS) (os : ostream) :
  CreateDatabase.write h os = os ++ va_write (vals_ h) ++ ks_write (keys_ h) /\
  take (length (va_write (vals_ h))) (drop (length os) (CreateDatabase.write h os))
    = va_write (vals_ h) /\
  drop (length os + length (va_write (vals_ h))) (CreateDatabase.write h os)
    = ks_write (keys_ h) /\
  (exists words, length (va_write (vals_ h)) = (8 * words)%nat) /\
  ((0 < per_word (va_bits (vals_ h)))%nat ->
   length (va_write (vals_ h))
   = (8 * ((length (va_slots (vals_ h)) + per_word (va_bits (vals_ h)) - 1)
           / per_word (va_bits (vals_ h))))%nat) /\
  (forall env args f,
      snd (main env args []) = Ok f ->
      exists ary : hash_with_quality KS,
        file_payload f = va_write (vals_ ary) ++ ks_write (keys_ ary)) /\
  MerDatabase.write h os = os ++ ks_write (keys_ h) ++ va_write (vals_ h).
Proof.
  assert (Hw : CreateDatabase.write h os = os ++ va_write (vals_ h) ++ ks_write (keys_ h)).
  { unfold CreateDatabase.write, os_write. now rewrite <- app_assoc. }
  split; [exact Hw|]. rewrite Hw.
  split; [rewrite drop_app_length; apply mapped_sections|].
  split; [now rewrite <- length_app, app_assoc, drop_app_length|].
  split; [eexists; apply words_bytes_length|].
  split.
  { intros Hp. unfold va_write. now rewrite words_bytes_length, words_of_slots_length. }
  split.
  - intros env args f Hf. destruct (main_file env args f Hf) as [ary ->].
    exists ary. reflexivity.
  - unfold MerDatabase.write, os_write. now rewrite <- app_assoc.
Qed.

(** A table written keys first, under a header that gives the length of each
    section, is mapped back section for section: the query side's key section
    is the key array as written, its value section the value array. *)
Lemma keys_first_sections_read_back {KS : Type} `{KeyStore KS}
    (h : hash_with_quality KS) (bits : Z) :
  exists q,
    database_query_new
      (single_file {| file_header := Some (describing_header h bits);
                      file_payload := MerDatabase.write h [] |}) "db" = Ok q /\
    kr_bytes (q_keys_ q) = ks_write (keys_ h) /\
    vr_bytes (q_vals_ q) = va_write (vals_ h).
Proof.
  eexists. split; [reflexivity|]. cbn.
  unfold MerDatabase.write, os_write. cbn [app].
  destruct (mapped_sections (ks_write (keys_ h)) (va_write (vals_ h))) as [Hk Hv].
  split; assumption.
Qed.

(** Written values first, the same table is mapped with the value array at the
    head of the key section. *)
Lemma values_first_sections_shifted {KS : Type} `{KeyStore KS}
    (h : hash_with_quality KS) (bits : Z) :
  exists q,
    database_query_new
      (single_file {| file_header := Some (describing_header h bits);
                      file_payload := CreateDatabase.write h [] |}) "db" = Ok q /\
    kr_bytes (q_keys_ q)
      = take (length (ks_write (keys_ h))) (va_write (vals_ h) ++ ks_write (keys_ h)).
Proof. eexists. split; reflexivity. Qed.

(** The slot width the query side reads with is the [bits] of the header, the
    width of the counter alone, while the value array has [bits + 1] a slot:
    even written keys first, the two-key table under the bit width [main]
    records is read back with 4 in the second slot, where the table holds 2. *)
Lemma keys_first_width_mismatch :
  exists q,
    database_query_new
      (single_file {| file_header := Some (describing_header two_mer_table 7);
                      file_payload := MerDatabase.write two_mer_table [] |}) "db" = Ok q /\
    raw_value_of (KS := slot_store) q (mer_of_string 3 "ACG") = Some 4.
Proof. eexists. split; reflexivity. Qed.

(** C6, on a table the code can hold.  The two-key table has the packed value
    2 for the 3-mer ACG.  Written by [write] of the database creation program
    and opened by [database_query] under a header that gives the length of
    each section, neither mapped section is the array that was written, and
    the value read back for ACG is 0. *)
Theorem created_file_not_read_back :
  value_of two_mer_table (mer_of_string 3 "ACG") = Some 2 /\
  exists q,
    database_query_new (single_file created_db) "db" = Ok q /\
    kr_bytes (q_keys_ q) <> ks_write (keys_ two_mer_table) /\
    vr_bytes (q_vals_ q) <> va_write (vals_ two_mer_table) /\
    raw_value_of (KS := slot_store) q (mer_of_string 3 "ACG") = Some 0.
Proof.
  split; [reflexivity|]. eexists. split; [reflexivity|].
  split; [vm_compute; discriminate|]. split; [vm_compute; discriminate|]. reflexivity.
Qed.

(** ** The read ACGT *)

(** C3 as stated fails: scanning the read ACGT with k = 3 and every quality
    above the threshold leaves the worker as it was, and [main] run on it
    writes the fresh table: no call of [add] is made, the table holds no key
    and no slot holds 3. *)
Lemma acgt_read_records_nothing :
  start 3 (char_val "#") 16 fresh_worker [[read_acgt]] = Finished fresh_worker /\
  snd (main sample_env sample_args [])
    = Ok {| file_header := Some {| h_format := ""; h_size := 4; h_key_len := 6;
                                   h_val_len := 0; h_max_reprobe := 126; h_bits := 7;
                                   h_key_bytes := 0; h_value_bytes := 0 |};
            file_payload := CreateDatabase.write fresh_table [] |} /\
  w_calls fresh_worker = [] /\
  value_of (w_ary fresh_worker) (canonical_of_window 3 "ACG") = None /\
  va_slots (vals_ (w_ary fresh_worker)) = [0; 0; 0; 0] /\
  ~ (exists w, start 3 (char_val "#") 16 fresh_worker [[read_acgt]] = Finished w /\
               w_calls w = [(canonical_of_window 3 "ACG", 1);
                            (canonical_of_window 3 "CGT", 1)]).
Proof.
  repeat split; try reflexivity.
  intros (w & Hw & Hcalls). cbn in Hw. injection Hw as <-. discriminate Hcalls.
Qed.

(** [add] on the reference store: a key that claims the first slot of an
    empty store, and a key found again in that slot. *)
Lemma add_first_key (n : nat) (b mx key q : Z) (sched : list Z) (rest : list Z) :
  add sched
    {| keys_ := {| ss_capacity := S n; ss_keys := [] |};
       vals_ := {| va_bits := b; va_slots := 0 :: rest |};
       max_val_ := mx |} key q
  = (true,
     {| keys_ := {| ss_capacity := S n; ss_keys := [key] |};
        vals_ := {| va_bits := b; va_slots := cas_loop sched q mx 0 :: rest |};
        max_val_ := mx |}).
Proof. reflexivity. Qed.

Lemma add_first_key_again (n : nat) (b mx key q v : Z) (sched : list Z) (rest : list Z) :
  add sched
    {| keys_ := {| ss_capacity := n; ss_keys := [key] |};
       vals_ := {| va_bits := b; va_slots := v :: rest |};
       max_val_ := mx |} key q
  = (true,
     {| keys_ := {| ss_capacity := n; ss_keys := [key] |};
        vals_ := {| va_bits := b; va_slots := cas_loop sched q mx v :: rest |};
        max_val_ := mx |}).
Proof.
  unfold add. cbn [ks_set slot_key_store keys_]. unfold slot_set.
  cbn [index_of ss_keys]. rewrite Z.eqb_refl. reflexivity.
Qed.

(** A key recorded twice with quality 1 on a fresh table of the reference
    store. *)
Lemma add_twice_fresh (size : nat) (bits key : Z) :
  (1 <= size)%nat -> 2 <= bits <= 63 ->
  let h0 : hash_with_quality slot_store := hash_with_quality_new size 6 bits 126 in
  let h1 := snd (add [] h0 key 1) in
  let h2 := snd (add [] h1 key 1) in
  fst (add [] h0 key 1) = true /\
  fst (add [] h1 key 1) = true /\
  ss_keys (keys_ h1) = [key] /\
  va_slots (vals_ h1) = 2 :: replicate (size - 1) 0 /\
  ss_keys (keys_ h2) = [key] /\
  va_slots (vals_ h2) = 4 :: replicate (size - 1) 0.
Proof.
  intros Hsize Hb. destruct size as [|n]; [lia|].
  replace (S n - 1)%nat with n by lia.
  cbn zeta. unfold hash_with_quality_new, val_array_new.
  cbn [ks_new ks_size slot_key_store ss_capacity replicate].
  rewrite add_first_key. cbn [fst snd]. rewrite add_first_key_again. cbn [fst snd].
  rewrite !cas_loop_alone.
  rewrite (merge_increments_small bits 0 1) by (try reflexivity; lia).
  rewrite (merge_increments_small bits (0 + 2) 1) by (try reflexivity; lia).
  repeat split; reflexivity.
Qed.

(** C3, amended.  With k = 3 the windows ACG and CGT of the read ACGT are
    each other's reverse complement and have one canonical k-mer.  Recorded
    through [add] with quality class 1 on a fresh table of at least one slot
    and at least two counter bits, both calls return [true] and take the
    increment branch: the one occupied slot holds 2 (counter 1, flag 0) after
    the first call and 4 (counter 2, flag 0) after the second, and no slot
    holds 3.  (What the scanner emits for the read is not part of this
    statement.) *)
Theorem acgt_windows_share_slot (size : nat) (bits : Z) :
  (1 <= size)%nat -> 2 <= bits <= 63 ->
  let key := canonical_of_window 3 "ACG" in
  let h0 : hash_with_quality slot_store := hash_with_quality_new size 6 bits 126 in
  let h1 := snd (add [] h0 key 1) in
  let h2 := snd (add [] h1 (canonical_of_window 3 "CGT") 1) in
  canonical_of_window 3 "CGT" = key /\
  fst (add [] h0 key 1) = true /\
  fst (add [] h1 (canonical_of_window 3 "CGT") 1) = true /\
  value_of h1 key = Some (pack 1 0) /\
  value_of h2 key = Some (pack 2 0) /\
  ss_keys (keys_ h2) = [key] /\
  Forall (fun v => v <> 3) (va_slots (vals_ h2)).
Proof.
  intros Hsize Hb.
  change (canonical_of_window 3 "CGT") with 6.
  change (canonical_of_window 3 "ACG") with 6.
  destruct (add_twice_fresh size bits 6 Hsize Hb) as (Hr1 & Hr2 & Hk1 & Hv1 & Hk2 & Hv2).
  cbn zeta in *.
  split; [reflexivity|]. split; [exact Hr1|]. split; [exact Hr2|].
  unfold value_of, va_get. cbn [ks_get_key_id slot_key_store].
  rewrite Hk1, Hv1, Hk2, Hv2.
  split; [reflexivity|]. split; [reflexivity|]. split; [reflexivity|].
  apply Forall_cons_2; [discriminate|]. apply Forall_replicate. discriminate.
Qed.

(** The amended C3 on a table of four slots with seven counter bits. *)
Lemma acgt_windows_share_slot_witness :
  value_of
    (snd (add [] (snd (add [] fresh_table (canonical_of_window 3 "ACG") 1))
            (canonical_of_window 3 "CGT") 1))
    (canonical_of_window 3 "ACG") = Some (pack 2 0).
Proof.
  destruct (acgt_windows_share_slot 4 7) as (_ & _ & _ & _ & H2 & _).
  - lia.
  - lia.
  - exact H2.
Defined.

(** ** More on the merge step and the retry loop *)

(** One observation on a slot whose flag is 0: the counter goes up by one
    unless it is at its maximum. *)
Lemma merge_unflagged (bits c q : Z) :
  1 <= bits <= 63 -> 0 <= c <= 2 ^ bits - 1 -> 0 <= q ->
  merge (pack c 0) q (max_val_of_bits bits) = pack (Z.min (c + 1) (2 ^ bits - 1)) 0.
Proof.
  intros Hb Hc Hq. rewrite max_val_of_bits_eq by assumption.
  unfold merge, pack. rewrite merge_step_arith by
    (try assumption; unfold packed_value; rewrite pow2_succ by lia; lia).
  replace ((2 * c + 0) mod 2) with 0 by (rewrite Z.add_0_r, Z.mul_comm, Z.mod_mul; lia).
  replace ((2 * c + 0) / 2) with c by (rewrite Z.add_0_r, Z.mul_comm, Z.div_mul; lia).
  destruct (Z.ltb_spec q 0); [lia|].
  destruct (Z.eqb_spec c (2 ^ bits - 1)); lia.
Qed.

(** X1. From a fresh slot, observations that nothing disturbs are counted up to
    the maximal counter and no further, and the flag stays 0 whatever their
    quality classes: after [n] of them the slot holds counter
    [min n (2^bits - 1)] and flag 0. *)
Theorem fresh_slot_counts_observations (bits : Z) (classes : list Z) :
  1 <= bits <= 63 -> Forall (fun q => 0 <= q) classes ->
  merge_all (max_val_of_bits bits) classes 0
  = pack (Z.min (Z.of_nat (length classes)) (2 ^ bits - 1)) 0.
Proof.
  intros Hb Hq.
  assert (Hp : 2 <= 2 ^ bits) by (change 2 with (2 ^ 1) at 1; apply Z.pow_le_mono_r; lia).
  assert (Hgen : forall c, 0 <= c <= 2 ^ bits - 1 ->
            merge_all (max_val_of_bits bits) classes (pack c 0)
            = pack (Z.min (c + Z.of_nat (length classes)) (2 ^ bits - 1)) 0).
  { induction Hq as [|q classes Hq0 _ IH]; intros c Hc.
    - cbn [merge_all fold_left length]. f_equal. lia.
    - change (merge_all (max_val_of_bits bits) (q :: classes) (pack c 0))
        with (merge_all (max_val_of_bits bits) classes
                (merge (pack c 0) q (max_val_of_bits bits))).
      rewrite merge_unflagged, IH by lia. f_equal. cbn [length]. lia. }
  change 0 with (pack 0 0) at 1. rewrite Hgen by lia. f_equal.
Qed.

(** Five observations with two counter bits: the counter stops at 3. *)
Lemma fresh_slot_counts_observations_witness :
  merge_all (max_val_of_bits 2) [1; 0; 1; 1; 0] 0 = 6.
Proof.
  apply (fresh_slot_counts_observations 2 [1; 0; 1; 1; 0]).
  - lia.
  - repeat (apply Forall_cons_2; [lia|]). apply Forall_nil_2.
Defined.


(** The retry loop ends on the merge of a value it read. *)
Lemma cas_loop_read (sched : list Z) (quality max_val nval : Z) :
  exists x, x ∈ nval :: sched /\
            cas_loop sched quality max_val nval = merge x quality max_val.
Proof.
  revert nval. induction sched as [|v sched IH]; intros nval.
  - exists nval. split; [apply list_elem_of_here | apply cas_loop_alone].
  - cbn [cas_loop]. destruct (merge_step nval quality max_val) eqn:Hs.
    + destruct (IH v) as (x & Hx & Hr). exists x. split; [|exact Hr].
      now apply list_elem_of_further.
    + exists nval. split; [apply list_elem_of_here|]. unfold merge. now rewrite Hs.
Qed.


(** ** Invariants of the table *)

Lemma merge_keeps_unflagged (bits v q : Z) :
  1 <= bits <= 63 -> 0 <= q -> unflagged bits v ->
  unflagged bits (merge v q (max_val_of_bits bits)).
Proof.
  intros Hb Hq [Hv Hf]. split; [now apply merge_packed|].
  rewrite flag_of_mod in Hf. destruct Hv as [Hlo Hhi].
  rewrite pow2_succ in Hhi by lia.
  pose proof (Z.div_mod v 2 ltac:(lia)) as Hdm.
  assert (Hc : 0 <= v / 2 <= 2 ^ bits - 1).
  { split; [apply Z.div_pos; lia|].
    assert (v / 2 < 2 ^ bits) by (apply Z.div_lt_upper_bound; lia). lia. }
  replace v with (pack (v / 2) 0) by (unfold pack; lia).
  rewrite merge_unflagged by assumption.
  rewrite flag_of_mod. unfold pack.
  rewrite Z.add_0_r, Z.mul_comm. apply Z.mod_mul. lia.
Qed.

Lemma cas_loop_keeps_unflagged (bits q nval : Z) (sched : list Z) :
  1 <= bits <= 63 -> 0 <= q -> unflagged bits nval -> Forall (unflagged bits) sched ->
  unflagged bits (cas_loop sched q (max_val_of_bits bits) nval).
Proof.
  intros Hb Hq Hn Hs.
  destruct (cas_loop_read sched q (max_val_of_bits bits) nval) as (x & Hx & ->).
  apply merge_keeps_unflagged; try assumption.
  apply elem_of_cons in Hx as [-> | Hx]; [assumption|].
  rewrite Forall_forall in Hs. now apply Hs.
Qed.

Lemma unflagged_zero (bits : Z) : 1 <= bits <= 63 -> unflagged bits 0.
Proof.
  intros Hb. split; [|reflexivity]. split; [lia|]. apply Z.pow_pos_nonneg; lia.
Qed.

Section TableFacts.
Context {KS : Type} `{KeyStore KS}.

(** A call of [add] keeps the width of the slots, their number and the
    maximal counter. *)
Lemma add_keeps_shape (sched : list Z) (h : hash_with_quality KS) (key quality : Z) :
  va_bits (vals_ (snd (add sched h key quality))) = va_bits (vals_ h) /\
  length (va_slots (vals_ (snd (add sched h key quality)))) = length (va_slots (vals_ h)) /\
  max_val_ (snd (add sched h key quality)) = max_val_ h.
Proof.
  unfold add. destruct (ks_set (keys_ h) key) as [[[keys' is_new] id]|]; cbn.
  - now rewrite length_insert.
  - repeat split.
Qed.

Lemma add_keeps_unflagged (bits : Z) (sched : list Z) (h : hash_with_quality KS)
    (key quality : Z) :
  1 <= bits <= 63 -> 0 <= quality -> Forall (unflagged bits) sched ->
  max_val_ h = max_val_of_bits bits ->
  Forall (unflagged bits) (va_slots (vals_ h)) ->
  Forall (unflagged bits) (va_slots (vals_ (snd (add sched h key quality)))).
Proof.
  intros Hb Hq Hs Hmx Hall. unfold add.
  destruct (ks_set (keys_ h) key) as [[[keys' is_new] id]|]; cbn; [|assumption].
  apply Forall_insert; [assumption|]. rewrite Hmx.
  apply cas_loop_keeps_unflagged; try assumption.
  unfold va_get. destruct (va_slots (vals_ h) !! id) as [v|] eqn:Hv; cbn.
  - rewrite Forall_forall in Hall. apply Hall. eapply list_elem_of_lookup_2. exact Hv.
  - now apply unflagged_zero.
Qed.

(** X3. Whatever calls of [add] are made on a new table, with whatever keys
    and quality classes, and whatever the other threads (which store such
    values too) do in between, every slot stays a packed value with flag 0:
    the table never comes to hold the flag of a high-quality observation.  The
    value array keeps its size, the size of the key store as constructed. *)
Theorem table_never_flags (size : nat) (key_len bits reprobe_limit : Z)
    (calls : list add_call) :
  1 <= bits <= 63 ->
  Forall (fun c => 0 <= ac_quality c /\ Forall (unflagged bits) (ac_sched c)) calls ->
  Forall (unflagged bits)
    (va_slots (vals_ (add_all calls (hash_with_quality_new size key_len bits reprobe_limit)))) /\
  length (va_slots (vals_ (add_all calls
                             (hash_with_quality_new size key_len bits reprobe_limit))))
  = ks_size (ks_new (KS := KS) size key_len 0 reprobe_limit).
Proof.
  intros Hb Hcalls.
  assert (Hgen : forall h : hash_with_quality KS,
            max_val_ h = max_val_of_bits bits ->
            Forall (unflagged bits) (va_slots (vals_ h)) ->
            Forall (unflagged bits) (va_slots (vals_ (add_all calls h))) /\
            length (va_slots (vals_ (add_all calls h))) = length (va_slots (vals_ h))).
  { induction Hcalls as [|c calls [Hq Hs] _ IH]; intros h Hmx Hall; [now split|].
    change (add_all (c :: calls) h)
      with (add_all calls (snd (add (ac_sched c) h (ac_key c) (ac_quality c)))).
    destruct (add_keeps_shape (ac_sched c) h (ac_key c) (ac_quality c)) as (_ & Hlen & Hmx').
    destruct (IH (snd (add (ac_sched c) h (ac_key c) (ac_quality c)))) as [IH1 IH2].
    - now rewrite Hmx'.
    - now apply add_keeps_unflagged.
    - split; [exact IH1 | now rewrite IH2]. }
  destruct (Hgen (hash_with_quality_new size key_len bits reprobe_limit)) as [H1 H2].
  - reflexivity.
  - cbn. apply Forall_replicate. now apply unflagged_zero.
  - split; [exact H1|]. rewrite H2. cbn. apply length_replicate.
Qed.
End TableFacts.

(** The theorem on the reference store: three calls, the second one disturbed
    by another thread that stored 4 in the slot. *)
Lemma table_never_flags_witness :
  Forall (unflagged 7)
    (va_slots (vals_ (add_all
       [ {| ac_sched := []; ac_key := 6; ac_quality := 1 |};
         {| ac_sched := [4]; ac_key := 6; ac_quality := 0 |};
         {| ac_sched := []; ac_key := 1; ac_quality := 1 |} ]
       (hash_with_quality_new (KS := slot_store) 4 6 7 126)))).
Proof.
  refine (proj1 (table_never_flags (KS := slot_store) 4 6 7 126 _ _ _)).
  - lia.
  - repeat (apply Forall_cons_2;
            [split; [cbn; lia | repeat (apply Forall_cons_2; [|]); try apply Forall_nil_2]|]).
    + split; [split; [lia | reflexivity] | reflexivity].
    + apply Forall_nil_2.
Defined.

(** ** What a call of [add] changes *)

(** X4. A call of [add] whose key the store takes at slot [id] changes the
    value array in that slot only: every other slot reads as before, the slot
    [id] (which lies inside the array) reads what the retry loop left, and the
    key store is the one [set] returned. *)
Theorem add_changes_one_slot {KS : Type} `{KeyStore KS} (sched : list Z)
    (h : hash_with_quality KS) (key quality : Z) (keys' : KS) (is_new : bool) (id : nat) :
  ks_set (keys_ h) key = Some (keys', is_new, id) ->
  (id < length (va_slots (vals_ h)))%nat ->
  keys_ (snd (add sched h key quality)) = keys' /\
  va_get (vals_ (snd (add sched h key quality))) id
    = cas_loop sched quality (max_val_ h) (va_get (vals_ h) id) /\
  forall j, j <> id ->
    va_get (vals_ (snd (add sched h key quality))) j = va_get (vals_ h) j.
Proof.
  intros Hset Hid. unfold add. rewrite Hset. cbn. unfold va_get, va_set. cbn.
  split; [reflexivity|]. split.
  - now rewrite list_lookup_insert_eq.
  - intros j Hj. now rewrite list_lookup_insert_ne by congruence.
Qed.

(** The theorem on the table of four slots that holds two 3-mers: ACG is
    recorded once more in slot 1, slot 0 keeps its value. *)
Lemma add_changes_one_slot_witness :
  va_get (vals_ (snd (add [] two_mer_table 6 1))) 1 = 4 /\
  va_get (vals_ (snd (add [] two_mer_table 6 1))) 0 = 2.
Proof.
  destruct (add_changes_one_slot [] two_mer_table 6 1 (keys_ two_mer_table) false 1)
    as (_ & H1 & Hother).
  - reflexivity.
  - change (1 < 4)%nat. lia.
  - split; [exact H1 | exact (Hother 0%nat ltac:(discriminate))].
Defined.

(** ** The reference key store keeps the contract *)

Lemma index_of_lookup (key : Z) (keys : list Z) (id : nat) :
  index_of key keys = Some id -> keys !! id = Some key.
Proof.
  revert id. induction keys as [|k keys IH]; intros id; cbn [index_of]; [discriminate|].
  destruct (Z.eqb_spec k key) as [->|Hne].
  - intros [= <-]. reflexivity.
  - destruct (index_of key keys) as [i|]; cbn; [|discriminate].
    intros [= <-]. cbn. now apply IH.
Qed.

Lemma index_of_app_found (key k : Z) (keys : list Z) (id : nat) :
  index_of key keys = Some id -> index_of key (keys ++ [k]) = Some id.
Proof.
  revert id. induction keys as [|k0 keys IH]; intros id; cbn [index_of app]; [discriminate|].
  destruct (k0 =? key); [trivial|].
  destruct (index_of key keys) as [i|]; cbn; [|discriminate].
  intros [= <-]. now rewrite (IH i).
Qed.

Lemma index_of_app_new (key : Z) (keys : list Z) :
  index_of key keys = None -> index_of key (keys ++ [key]) = Some (length keys).
Proof.
  induction keys as [|k0 keys IH]; cbn [index_of app length].
  - now rewrite Z.eqb_refl.
  - destruct (k0 =? key); [discriminate|].
    destruct (index_of key keys) as [i|]; cbn; [discriminate|].
    intros _. now rewrite IH.
Qed.

#[export] Instance slot_store_laws : KeyStoreLaws slot_store slot_store_wf.
Proof.
  split.
  - intros size key_len val_len reprobe. unfold slot_store_wf. cbn. lia.
  - intros s key s' is_new id Hwf. cbn. unfold slot_set, slot_store_wf in *.
    destruct (index_of key (ss_keys s)); [intros [= <- _ _]; exact Hwf|].
    destruct (Nat.ltb_spec (length (ss_keys s)) (ss_capacity s)); [|discriminate].
    intros [= <- _ _]. cbn. rewrite length_app. cbn. lia.
  - intros s key s' is_new id Hwf. cbn. unfold slot_set, slot_store_wf in *.
    destruct (index_of key (ss_keys s)) as [i|] eqn:Hi.
    + intros [= _ _ <-]. apply index_of_lookup, lookup_lt_Some in Hi. lia.
    + destruct (Nat.ltb_spec (length (ss_keys s)) (ss_capacity s)); [|discriminate].
      intros [= _ _ <-]. assumption.
  - intros s key s' is_new id. cbn. unfold slot_set.
    destruct (index_of key (ss_keys s)); [now intros [= <- _ _]|].
    destruct (length (ss_keys s) <? ss_capacity s)%nat; [|discriminate].
    now intros [= <- _ _].
  - intros s key s' is_new id. cbn. unfold slot_set.
    destruct (index_of key (ss_keys s)) as [i|] eqn:Hi; [now intros [= <- _ <-]|].
    destruct (length (ss_keys s) <? ss_capacity s)%nat; [|discriminate].
    intros [= <- _ <-]. cbn. now apply index_of_app_new.
  - intros s key s' is_new id key' id'. cbn. unfold slot_set.
    destruct (index_of key (ss_keys s)) as [i|] eqn:Hi; [now intros [= <- _ _]|].
    destruct (length (ss_keys s) <? ss_capacity s)%nat; [|discriminate].
    intros [= <- _ _] Hk. cbn. now apply index_of_app_found.
  - intros s key s' is_new id key' id'. cbn. unfold slot_set.
    destruct (index_of key (ss_keys s)) as [i|] eqn:Hi.
    + intros [= _ _ <-] Hk Hne ->. apply index_of_lookup in Hi, Hk. congruence.
    + destruct (length (ss_keys s) <? ss_capacity s)%nat; [|discriminate].
      intros [= _ _ <-] Hk _. apply index_of_lookup, lookup_lt_Some in Hk. lia.
Qed.

(** X5. On a key store that keeps its contract and a table whose value array
    has one slot for each slot of the store, a call of [add] that the store
    accepts leaves the key in the table with the value of the retry loop,
    leaves every other stored key with the value it had, and leaves the table
    in the same condition for the next call. *)
Theorem add_then_value_of {KS : Type} `{KeyStore KS} (wf : KS -> Prop)
    `{!KeyStoreLaws KS wf} (sched : list Z) (h : hash_with_quality KS)
    (key quality : Z) (keys' : KS) (is_new : bool) (id : nat) :
  wf (keys_ h) ->
  length (va_slots (vals_ h)) = ks_size (keys_ h) ->
  ks_set (keys_ h) key = Some (keys', is_new, id) ->
  value_of (snd (add sched h key quality)) key
    = Some (cas_loop sched quality (max_val_ h) (va_get (vals_ h) id)) /\
  (forall key' v, key' <> key -> value_of h key' = Some v ->
                  value_of (snd (add sched h key quality)) key' = Some v) /\
  wf (keys_ (snd (add sched h key quality))) /\
  length (va_slots (vals_ (snd (add sched h key quality))))
  = ks_size (keys_ (snd (add sched h key quality))).
Proof.
  intros Hwf Hlen Hset.
  pose proof (ks_set_bound _ _ _ _ _ Hwf Hset) as Hid. rewrite <- Hlen in Hid.
  destruct (add_keeps_shape sched h key quality) as (_ & Hlen' & _).
  unfold value_of. unfold add in *. rewrite Hset in *. cbn in *.
  rewrite (ks_set_found _ _ _ _ _ Hset). cbn.
  unfold va_get, va_set. cbn.
  split; [now rewrite list_lookup_insert_eq|]. split; [|split].
  - intros key' v Hne Hv.
    destruct (ks_get_key_id (keys_ h) key') as [id'|] eqn:Hk; [|discriminate].
    rewrite (ks_set_stable _ _ _ _ _ _ _ Hset Hk). cbn in *.
    pose proof (ks_set_fresh _ _ _ _ _ _ _ Hset Hk Hne) as Hfresh.
    now rewrite list_lookup_insert_ne by congruence.
  - exact (ks_set_wf _ _ _ _ _ Hwf Hset).
  - rewrite length_insert, Hlen. symmetry. exact (ks_set_size _ _ _ _ _ Hset).
Qed.

(** The theorem on the reference store: the 3-mer CGT recorded on the table
    that holds AAC and ACG. *)
Lemma add_then_value_of_witness :
  value_of (snd (add [] two_mer_table 27 1)) 27 = Some 2 /\
  value_of (snd (add [] two_mer_table 27 1)) 6 = Some 2.
Proof.
  destruct (add_then_value_of slot_store_wf [] two_mer_table 27 1
              {| ss_capacity := 4; ss_keys := [1; 6; 27] |} true 2)
    as (Hkey & Hother & _).
  - unfold slot_store_wf. change (2 <= 4)%nat. lia.
  - reflexivity.
  - reflexivity.
  - split; [exact Hkey | exact (Hother 6 2 ltac:(discriminate) eq_refl)].
Defined.

(** ** Runs of [main] *)

Section MainRuns.
Context {KS : Type} `{KeyStore KS}.


(** The header of the file [main] leaves carries no format tag. *)
Lemma main_header_format (env : environment) (args : create_database_cmdline)
    (f : db_file) :
  snd (main env args []) = Ok f ->
  exists hdr, file_header f = Some hdr /\ h_format hdr = "" /\
              h_bits hdr = bits_arg args /\ h_key_bytes hdr = 0%nat.
Proof.
  unfold main.
  destruct (negb (min_qual_value_given args) && negb (min_qual_char_given args));
    cbn [when bind error ret snd]; [discriminate|].
  destruct (negb (String.length (min_qual_char_arg args) =? 1)%nat);
    cbn [when bind error ret snd]; [discriminate|].
  destruct ((bits_arg args <? 1) || (bits_arg args >? 63));
    cbn [when bind error ret emit snd]; [discriminate|].
  destruct (negb (env_output_good env (output_arg args)));
    cbn [when bind error ret emit snd]; [discriminate|].
  unfold of_outcome.
  match goal with
  | |- context [exec_join ?a ?b ?c ?d ?e ?f] =>
      destruct (exec_join a b c d e f) as [ary| |]
  end; cbn [snd]; try discriminate.
  intros [= <-]. eexists. cbn. repeat split.
Qed.


End MainRuns.


(** X8. No file that [main] of the database creation program leaves is opened
    by [database_query]: its header carries no format tag, and the
    constructor gives up with the wrong-type error. *)
Theorem created_file_refused {KS : Type} `{KeyStore KS}
    (env : environment) (args : create_database_cmdline) (f : db_file) :
  snd (main env args []) = Ok f ->
  database_query_new (single_file f) "db" = Fatal "Wrong type for file".
Proof.
  intros Hf. destruct (main_header_format env args f Hf) as (hdr & Hh & Hfmt & _).
  unfold database_query_new, parse_header, single_file. cbn.
  rewrite Hh. unfold check_format. rewrite Hfmt. reflexivity.
Qed.

(** The theorem on the file of the sample configuration. *)
Lemma created_file_refused_witness :
  database_query_new
    (single_file
       {| file_header := Some {| h_format := ""; h_size := 4; h_key_len := 6;
                                 h_val_len := 0; h_max_reprobe := 126; h_bits := 7;
                                 h_key_bytes := 0; h_value_bytes := 0 |};
          file_payload := CreateDatabase.write fresh_table [] |}) "db"
  = Fatal "Wrong type for file".
Proof.
  apply (created_file_refused (KS := slot_store) sample_env sample_args).
  reflexivity.
Defined.

(** ** Opening a database *)





(** ** [oid_speed_calc] *)

Lemma base0_code_range (m : Z) : 0 <= base0_code m < 4.
Proof.
  unfold base0_code. change 3 with (Z.ones 2). rewrite Z.land_ones by lia.
  apply Z.mod_pos_bound. lia.
Qed.

(** Setting base 0 is an exclusive or with the old and the new base. *)
Lemma set_base0_xor (m c : Z) :
  set_base0 m c = Z.lxor (Z.lxor m (base0_code m)) (base0_code c).
Proof.
  unfold set_base0, base0_code. apply Z.bits_inj'. intros n Hn.
  rewrite Z.lor_spec, Z.ldiff_spec, !Z.lxor_spec, !Z.land_spec.
  change 3 with (Z.ones 2). rewrite Z.testbit_ones_nonneg by lia.
  destruct (Z.testbit m n), (Z.testbit c n), (n <? 2); reflexivity.
Qed.

Lemma changes_of_new (times : Z -> Z) (size_mask : Z) :
  changes_ (oid_speed_calc_new times size_mask) = [0; times 1; times 2; times 3].
Proof. reflexivity. Qed.

Lemma xor_linear_zero (times : Z -> Z) : xor_linear times -> times 0 = 0.
Proof.
  intros Hlin. pose proof (Hlin 0 0) as H0. rewrite Z.lxor_0_l in H0.
  rewrite H0 at 1. apply Z.lxor_nilpotent.
Qed.

(** The entry [changes_[c]] of a constructed calculator, for a base code. *)
Lemma change_of_new (times : Z -> Z) (size_mask c : Z) :
  0 <= c < 4 ->
  change (oid_speed_calc_new times size_mask) c = if c =? 0 then 0 else times c.
Proof.
  intros Hc. unfold change. rewrite changes_of_new.
  assert (Hcases : c = 0 \/ c = 1 \/ c = 2 \/ c = 3) by lia.
  destruct Hcases as [-> | [-> | [-> | ->]]]; reflexivity.
Qed.

(** X11. Whatever the matrix, the entry that [calc] gives for the base the
    k-mer already has in position 0 is the masked product of the k-mer
    itself: its own slot. *)
Theorem calc_own_base (times : Z -> Z) (size_mask m : Z) :
  calc (oid_speed_calc_new times size_mask) m !! Z.to_nat (base0_code m)
  = Some (Z.land (times m) size_mask).
Proof.
  pose proof (base0_code_range m) as Hc.
  unfold calc. cbn [matrix_times size_mask_ oid_speed_calc_new].
  fold (oid_speed_calc_new times size_mask).
  rewrite !change_of_new by lia.
  assert (Hcases : base0_code m = 0 \/ base0_code m = 1 \/ base0_code m = 2 \/
                   base0_code m = 3) by lia.
  destruct Hcases as [-> | [-> | [-> | ->]]]; cbn - [Z.lxor Z.land];
    f_equal; rewrite ?Z.lxor_0_r, ?Z.lxor_assoc, ?Z.lxor_nilpotent, ?Z.lxor_0_r;
    reflexivity.
Qed.

(** X12. When the product is linear over exclusive or, the entry [i] that
    [calc] gives agrees, on the bits of the size mask, with the product of the
    k-mer whose base 0 was replaced by [i]; and it is that product when the
    products have no bit outside the mask. *)
Theorem calc_substitutions (times : Z -> Z) (size_mask m i : Z) :
  xor_linear times -> 0 <= i < 4 ->
  exists x,
    calc (oid_speed_calc_new times size_mask) m !! Z.to_nat i = Some x /\
    Z.land x size_mask = Z.land (times (set_base0 m i)) size_mask /\
    ((forall v, Z.land (times v) size_mask = times v) -> x = times (set_base0 m i)).
Proof.
  intros Hlin Hi.
  pose proof (base0_code_range m) as Hc.
  pose proof (xor_linear_zero times Hlin) as H0.
  assert (Hch : forall c, 0 <= c < 4 ->
                  change (oid_speed_calc_new times size_mask) c = times c).
  { intros c Hcr. rewrite change_of_new by assumption.
    destruct (Z.eqb_spec c 0) as [-> |]; [now rewrite H0 | reflexivity]. }
  assert (Hi3 : base0_code i = i).
  { unfold base0_code. change 3 with (Z.ones 2). rewrite Z.land_ones by lia.
    apply Z.mod_small. lia. }
  assert (Hsub : times (set_base0 m i)
                 = Z.lxor (Z.lxor (times m) (times (base0_code m))) (times i)).
  { rewrite set_base0_xor, Hi3, !Hlin. reflexivity. }
  exists (Z.lxor (Z.lxor (Z.land (times m) size_mask) (times (base0_code m))) (times i)).
  split; [|split].
  - unfold calc. cbn [matrix_times size_mask_ oid_speed_calc_new].
    fold (oid_speed_calc_new times size_mask). rewrite !Hch by lia.
    assert (Hcases : i = 0 \/ i = 1 \/ i = 2 \/ i = 3) by lia.
    destruct Hcases as [-> | [-> | [-> | ->]]]; cbn - [Z.lxor Z.land]; f_equal.
    now rewrite H0, Z.lxor_0_r.
  - rewrite Hsub. apply Z.bits_inj'. intros n Hn.
    rewrite !Z.land_spec, !Z.lxor_spec, !Z.land_spec.
    destruct (Z.testbit (times m) n), (Z.testbit size_mask n),
      (Z.testbit (times (base0_code m)) n), (Z.testbit (times i) n); reflexivity.
  - intros Hrange. rewrite Hsub, Hrange. reflexivity.
Qed.

(** The theorem for the product that maps a k-mer to itself, a table of 64
    slots and the 3-mer CGT: replacing its last base by G gives CGG. *)
Lemma calc_substitutions_witness :
  exists x,
    calc (oid_speed_calc_new (fun v => v) 63) 27 !! 2%nat = Some x /\
    Z.land x 63 = Z.land (set_base0 27 2) 63.
Proof.
  destruct (calc_substitutions (fun v => v) 63 27 2) as (x & Hx & Hmask & _).
  - intros a b. reflexivity.
  - lia.
  - exists x. split; [exact Hx | exact Hmask].
Defined.

(** ** The members of the header *)

(** X13. What the setters of [database_header] store, its getters read back:
    after the bit width, the two byte counts and the format were set, in this
    order or another, on any header, [bits], [key_bytes] and [value_bytes]
    give the values set and [check_format] holds.  A setter changes no member
    but its own. *)
Theorem header_members_round_trip (root : gmap string json_value) (b kb vb : Z) :
  0 <= b < 2 ^ 32 -> 0 <= kb < 2 ^ 64 -> 0 <= vb < 2 ^ 64 ->
  let h := Header.set_format (Header.set_key_bytes kb
             (Header.set_value_bytes vb (Header.set_bits b root))) in
  Header.bits h = Some b /\
  Header.key_bytes h = Some kb /\
  Header.value_bytes h = Some vb /\
  Header.check_format h = true /\
  h = Header.set_bits b (Header.set_value_bytes vb
        (Header.set_key_bytes kb (Header.set_format root))) /\
  Header.key_bytes (Header.set_bits b root) = Header.key_bytes root /\
  Header.value_bytes (Header.set_bits b root) = Header.value_bytes root /\
  Header.bits (Header.set_key_bytes kb root) = Header.bits root /\
  Header.bits (Header.set_value_bytes vb root) = Header.bits root.
Proof.
  intros Hb Hkb Hvb h. subst h.
  unfold Header.bits, Header.key_bytes, Header.value_bytes, Header.check_format,
    Header.set_format, Header.set_key_bytes, Header.set_value_bytes, Header.set_bits,
    member, wrap32, wrap64.
  rewrite !Z.mod_small by lia.
  repeat split.
  - rewrite !lookup_insert_ne, lookup_insert_eq by discriminate. cbn.
    destruct (Z.ltb_spec b (2 ^ 32)); [reflexivity | lia].
  - now rewrite lookup_insert_ne, lookup_insert_eq by discriminate.
  - now rewrite !lookup_insert_ne, lookup_insert_eq by discriminate.
  - now rewrite lookup_insert_eq.
  - apply map_eq. intros name. rewrite !lookup_insert.
    repeat case_decide; simplify_eq; reflexivity.
  - now rewrite lookup_insert_ne by discriminate.
  - now rewrite lookup_insert_ne by discriminate.
  - now rewrite lookup_insert_ne by discriminate.
  - now rewrite lookup_insert_ne by discriminate.
Qed.

(** The theorem on the empty header, for seven counter bits and sections of 32
    and 8 bytes. *)
Lemma header_members_round_trip_witness :
  Header.bits (Header.set_format (Header.set_key_bytes 32
                 (Header.set_value_bytes 8 (Header.set_bits 7 ∅)))) = Some 7.
Proof.
  refine (proj1 (header_members_round_trip ∅ 7 32 8 _ _ _)); lia.
Defined.

(** X14. A header passes [check_format] only through [set_format]: no other
    setter changes the answer, a header that holds no format member fails the
    check, and [set_format] makes any header pass. *)
Theorem check_format_needs_set_format (root : gmap string json_value) (b kb vb : Z) :
  Header.check_format (Header.set_bits b root) = Header.check_format root /\
  Header.check_format (Header.set_key_bytes kb root) = Header.check_format root /\
  Header.check_format (Header.set_value_bytes vb root) = Header.check_format root /\
  (root !! "format" = None -> Header.check_format root = false) /\
  Header.check_format (Header.set_bits b ∅) = false /\
  Header.check_format (Header.set_format root) = true.
Proof.
  unfold Header.check_format, Header.set_format, Header.set_key_bytes,
    Header.set_value_bytes, Header.set_bits, member.
  repeat split.
  - now rewrite lookup_insert_ne by discriminate.
  - now rewrite lookup_insert_ne by discriminate.
  - now rewrite lookup_insert_ne by discriminate.
  - intros ->. reflexivity.
  - now rewrite lookup_insert_eq.
Qed.

(** ** A round of the body of the scanner's loop *)




(** ** The value handed to [set] fits the slot *)

(** X16. For a counter of 1 to 63 bits, whatever packed value the retry loop
    reads first and whatever packed values failed attempts hand back, the
    value it leaves is a packed value: below [2^(bits+1)], so it fits the slot
    of [bits + 1] bits, for every quality class. *)
Theorem stored_value_fits_slot (bits quality nval : Z) (sched : list Z) :
  1 <= bits <= 63 -> packed_value bits nval -> Forall (packed_value bits) sched ->
  packed_value bits (cas_loop sched quality (max_val_of_bits bits) nval).
Proof.
  intros Hb Hn Hs.
  destruct (cas_loop_read sched quality (max_val_of_bits bits) nval) as (x & Hx & ->).
  apply merge_packed; [assumption|].
  apply elem_of_cons in Hx as [-> | Hx]; [assumption|].
  rewrite Forall_forall in Hs. now apply Hs.
Qed.

(** The theorem for one counter bit: the value 3 read, the value 2 handed
    back. *)
Lemma stored_value_fits_slot_witness :
  packed_value 1 (cas_loop [2] 0 (max_val_of_bits 1) 3).
Proof.
  apply stored_value_fits_slot.
  - lia.
  - unfold packed_value. simpl. lia.
  - apply Forall_cons_2; [unfold packed_value; simpl; lia | apply Forall_nil_2].
Defined.

(** ** The byte layout read back *)











(** X17. A table written by the [write] of [mer_database.hpp], in a file whose
    header carries the format tag and gives the byte lengths of the two
    arrays, is opened by [database_query] with the key array as written for
    its key section and the value array as written for its value section,
    whatever the key store. *)
Theorem keys_first_file_maps_back {KS : Type} `{KeyStore KS}
    (fs : file_system) (filename : string) (f : db_file) (hdr : database_header)
    (h : hash_with_quality KS) :
  fs filename = Some f ->
  file_header f = Some hdr ->
  h_format hdr = "binary/quorum_db" ->
  h_key_bytes hdr = length (ks_write (keys_ h)) ->
  h_value_bytes hdr = length (va_write (vals_ h)) ->
  file_payload f = MerDatabase.write h [] ->
  exists q,
    database_query_new fs filename = Ok q /\
    kr_bytes (q_keys_ q) = ks_write (keys_ h) /\
    vr_bytes (q_vals_ q) = va_write (vals_ h).
Proof.
  intros Hfs Hh Hfmt Hkb Hvb Hpay.
  unfold database_query_new, parse_header, check_format.
  rewrite Hfs, Hh, Hfmt. cbn. eexists. split; [reflexivity|]. cbn.
  rewrite Hpay, Hkb, Hvb. unfold MerDatabase.write, os_write. cbn [app].
  apply mapped_sections.
Qed.

(** The theorem on the two-key table of the reference store. *)
Lemma keys_first_file_maps_back_witness :
  exists q,
    database_query_new (single_file sample_db) "db" = Ok q /\
    kr_bytes (q_keys_ q) = ks_write (keys_ two_mer_table) /\
    vr_bytes (q_vals_ q) = va_write (vals_ two_mer_table).
Proof.
  apply (keys_first_file_maps_back (single_file sample_db) "db" sample_db
           (describing_header two_mer_table 8) two_mer_table); reflexivity.
Defined.


